(** * Reactive browser adapters: a shallow embedding

  The repository is a catalogue of small composables, each wrapping one
  browser API behind reactive cells.  Every composable is embedded as a
  record of its reactive cells together with the handlers it registers;
  platform events are delivered by an explicit [dispatch]/[step]
  function.  Platform objects (window, navigator, document, elements) are
  inputs of the model: JS objects read by name are finite maps from
  property names to values, promises are their settled outcome, timers
  live in an explicit queue ordered by due time. *)

From Stdlib Require Import ZArith QArith Ascii.
From stdpp Require Import gmap strings list.

Set Warnings "-register-all".
Local Open Scope Z_scope.

(** ** Shared JavaScript vocabulary *)

(** The settled outcome of a promise returned by an [async] function. *)
Inductive outcome := Resolved | Rejected.

Global Instance outcome_eq_dec : EqDecision outcome.
Proof. solve_decision. Defined.

(** A JS reference that may be [undefined] or [null]. *)
Inductive Maybe (A : Type) := undefined | null | value (a : A).
Arguments undefined {A}.
Arguments null {A}.
Arguments value {A} a.

(** [x == null] / [x != null]. *)
Definition nullish {A} (x : Maybe A) : bool :=
  match x with value _ => false | _ => true end.

(** Truthiness of a string-or-nothing value: only a non-empty string. *)
Definition truthy (x : Maybe string) : bool :=
  match x with value s => negb (String.eqb s EmptyString) | _ => false end.

(** [a || b]. *)
Definition js_or (a b : Maybe string) : Maybe string :=
  if truthy a then a else b.

(** Modelled from the spec: [useSupported] is not among the sources; a
  capability "must be exposed as a boolean", so it is the boolean
  coercion of the probe's result. *)
Definition useSupported (probe : bool) : bool := probe.

(** Timer handles are the positive integers the browser hands out; they are
  always truthy. *)
Abbreviation TimerHandle := positive.

Module Timers.
Section Queue.
(** [A] is the closure run when the timer fires. *)
Context {A : Type}.

Record timer := Timer { t_handle : TimerHandle; t_due : Z; t_cb : A }.

Record timers := MkTimers { next_handle : TimerHandle; pending : list timer }.

Definition no_timers : timers := MkTimers 1%positive [].

(** The queue is kept in firing order: a new timer goes behind every
    pending timer that is due no later than itself. *)
Fixpoint enqueue (t : timer) (l : list timer) : list timer :=
  match l with
  | [] => [t]
  | u :: l' => if t_due t <? t_due u then t :: l else u :: enqueue t l'
  end.

(** [setTimeout(cb, delay)] at clock [now], for a delay the platform
    takes as it is (see [in_range] below); negative delays are clamped. *)
Definition setTimeout (cb : A) (delay now : Z) (T : timers) : TimerHandle * timers :=
  let h := next_handle T in
  (h, MkTimers (Pos.succ h) (enqueue (Timer h (now + Z.max 0 delay) cb) (pending T))).

(** [clearTimeout(h)]: a stale or unknown handle is ignored. *)
Definition clearTimeout (h : TimerHandle) (T : timers) : timers :=
  MkTimers (next_handle T)
           (List.filter (fun t => negb (Pos.eqb (t_handle t) h)) (pending T)).

(** The timers due at clock [now], in firing order, and those left. *)
Fixpoint split_due (now : Z) (l : list timer) : list timer * list timer :=
  match l with
  | [] => ([], [])
  | u :: l' =>
      if t_due u <=? now
      then let '(d, r) := split_due now l' in (u :: d, r)
      else ([], l)
  end.

Definition take_due (now : Z) (T : timers) : list A * timers :=
  let '(d, r) := split_due now (pending T) in
  (map t_cb d, MkTimers (next_handle T) r).
End Queue.
Arguments timer : clear implicits.
Arguments timers : clear implicits.

(** The platform converts the delay it is given to a signed 32-bit number
    of milliseconds: only a delay in this range is waited for as
    written (a larger one fires at once). *)
Definition in_range (delay : Z) : Prop := -2147483648 ≤ delay ≤ 2147483647.
End Timers.

(** The time covered by a run of clock advances. *)
Definition total (ws : list N) : Z := foldr (fun d acc => Z.of_N d + acc) 0 ws.

(** ** useNetwork *)
Module Network.

Inductive NetworkType :=
  bluetooth | cellular | ethernet | none | wifi | wimax | other | unknown.

Inductive NetworkEffectiveType := slow_2g | eff_2g | eff_3g | eff_4g.

(** What the platform's [navigator.connection] object reports when it is
    read; every field may be missing on a given browser. *)
Record NetworkInformation := {
  c_downlink : option Q;
  c_downlinkMax : option Q;
  c_effectiveType : option NetworkEffectiveType;
  c_rtt : option Q;
  c_saveData : option bool;
  c_type : option NetworkType;
}.

(** The [connection] property of [navigator]: the key may be absent, or
    present but holding a falsy value, or hold the object. *)
Inductive ConnectionProp := KeyAbsent | KeyFalsy | KeyObject.

(** [window] as injected: [None] outside a browser; a window always has
    a navigator. *)
Record Window := { navigator_connection : ConnectionProp }.

(** What the mutable platform objects hold at the moment a handler runs. *)
Record Snapshot := {
  nav_onLine : bool;
  conn : NetworkInformation;
  date_now : Z;
}.

Record State := {
  (* captured at set-up *)
  has_window : bool;
  has_navigator : bool;
  isSupported : bool;
  connection : bool;            (* truthiness of the captured object *)
  (* reactive cells *)
  isOnline : bool;
  saveData : option bool;
  offlineAt : option Z;
  onlineAt : option Z;
  downlink : option Q;
  downlinkMax : option Q;
  rtt : option Q;
  effectiveType : option NetworkEffectiveType;
  type : option NetworkType;
}.

Definition updateNetworkInformation (p : Snapshot) (s : State) : State :=
  if negb (has_navigator s) then s
  else
    let online := nav_onLine p in
    let s1 :=
      {| has_window := has_window s; has_navigator := has_navigator s;
         isSupported := isSupported s; connection := connection s;
         isOnline := online;
         saveData := saveData s;
         offlineAt := if online then None else Some (date_now p);
         onlineAt := if online then Some (date_now p) else None;
         downlink := downlink s; downlinkMax := downlinkMax s;
         rtt := rtt s; effectiveType := effectiveType s; type := type s |} in
    if connection s1 then
      {| has_window := has_window s1; has_navigator := has_navigator s1;
         isSupported := isSupported s1; connection := connection s1;
         isOnline := isOnline s1;
         saveData := c_saveData (conn p);
         offlineAt := offlineAt s1;
         onlineAt := onlineAt s1;
         downlink := c_downlink (conn p);
         downlinkMax := c_downlinkMax (conn p);
         rtt := c_rtt (conn p);
         effectiveType := c_effectiveType (conn p);
         type := c_type (conn p) |}
    else s1.

Definition on_offline (p : Snapshot) (s : State) : State :=
  {| has_window := has_window s; has_navigator := has_navigator s;
     isSupported := isSupported s; connection := connection s;
     isOnline := false;
     saveData := saveData s;
     offlineAt := Some (date_now p);
     onlineAt := onlineAt s;
     downlink := downlink s; downlinkMax := downlinkMax s;
     rtt := rtt s; effectiveType := effectiveType s; type := type s |}.

Definition on_online (p : Snapshot) (s : State) : State :=
  {| has_window := has_window s; has_navigator := has_navigator s;
     isSupported := isSupported s; connection := connection s;
     isOnline := true;
     saveData := saveData s;
     offlineAt := offlineAt s;
     onlineAt := Some (date_now p);
     downlink := downlink s; downlinkMax := downlinkMax s;
     rtt := rtt s; effectiveType := effectiveType s; type := type s |}.

(** Set-up: the cells' initial values, the captured objects, then one
    immediate [updateNetworkInformation]. *)
Definition useNetwork (window : option Window) (p : Snapshot) : State :=
  let navigator := bool_decide (is_Some window) in
  let supported :=
    useSupported
      (match window with
       | Some w => match navigator_connection w with KeyAbsent => false | _ => true end
       | None => false
       end) in
  let connection :=
    supported &&
    match window with
    | Some w => match navigator_connection w with KeyObject => true | _ => false end
    | None => false
    end in
  updateNetworkInformation p
    {| has_window := bool_decide (is_Some window);
       has_navigator := navigator;
       isSupported := supported;
       connection := connection;
       isOnline := true;
       saveData := Some false;
       offlineAt := None;
       onlineAt := None;
       downlink := None;
       downlinkMax := None;
       rtt := None;
       effectiveType := None;
       type := Some unknown |}.

(** Platform events.  [ConnectionChange] is the [change] event of the
    connection object. *)
Inductive Event :=
| Offline (p : Snapshot)
| Online (p : Snapshot)
| ConnectionChange (p : Snapshot).

(** A handler runs only if set-up registered it. *)
Definition dispatch (s : State) (e : Event) : State :=
  match e with
  | Offline p => if has_window s then on_offline p s else s
  | Online p => if has_window s then on_online p s else s
  | ConnectionChange p => if connection s then updateNetworkInformation p s else s
  end.

Definition run (s : State) (es : list Event) : State := foldl dispatch s es.

(** The six connection-quality cells. *)
Definition quality_undefined (s : State) : Prop :=
  downlink s = None ∧ downlinkMax s = None ∧ effectiveType s = None ∧
  rtt s = None ∧ saveData s = None ∧ type s = None.

(** What the cells hold before any reading of the connection object. *)
Definition quality_initial (s : State) : Prop :=
  downlink s = None ∧ downlinkMax s = None ∧ effectiveType s = None ∧
  rtt s = None ∧ saveData s = Some false ∧ type s = Some unknown.

(** Sample platform readings. *)
Definition fast_wifi : NetworkInformation :=
  {| c_downlink := Some (10 # 1)%Q; c_downlinkMax := Some (100 # 1)%Q;
     c_effectiveType := Some eff_4g; c_rtt := Some (50 # 1)%Q;
     c_saveData := Some true; c_type := Some wifi |}.

Definition reading (online : bool) (t : Z) : Snapshot :=
  {| nav_onLine := online; conn := fast_wifi; date_now := t |}.

(** What set-up fixes for an instance without connection-quality
    support, and what no handler changes afterwards. *)
Definition unsupported_inv (s : State) : Prop :=
  connection s = false ∧ quality_initial s.

(** The time stamp that goes with the current status is set. *)
Definition stamped (s : State) : Prop :=
  if isOnline s then is_Some (onlineAt s) else is_Some (offlineAt s).

(** The six quality cells hold what the connection object reports. *)
Definition quality_mirrors (c : NetworkInformation) (s : State) : Prop :=
  downlink s = c_downlink c ∧ downlinkMax s = c_downlinkMax c ∧
  effectiveType s = c_effectiveType c ∧ rtt s = c_rtt c ∧
  saveData s = c_saveData c ∧ type s = c_type c.

(** What set-up captured. *)
Definition captured (s : State) : bool * bool * bool * bool :=
  (has_window s, has_navigator s, isSupported s, connection s).

End Network.

(** ** useActiveElement *)
Module ActiveElement.

(** An element and, when it hosts an open shadow root, that root's own
    [activeElement] ([None] for [null]).  The DOM is a finite tree, so
    the nesting is well-founded. *)
Inductive Element :=
| MkElement (el_id : nat) (shadowRoot : option (option Element)).

Definition el_id (e : Element) : nat := let 'MkElement i _ := e in i.
Definition shadowRoot (e : Element) : option (option Element) :=
  let 'MkElement _ r := e in r.

Record Options := {
  window : bool;             (* a window object is available *)
  options_document : bool;   (* a document was passed explicitly *)
  deep : bool;
}.

(** [options.document ?? window?.document] *)
Definition document (o : Options) : bool := options_document o || window o.

(** The [while (element?.shadowRoot)] loop, entered at an element. *)
Fixpoint descend (e : Element) : Maybe Element :=
  match e with
  | MkElement _ (Some (Some inner)) => descend inner
  | MkElement _ (Some None) => null
  | MkElement _ None => value e
  end.

(** [active] is what [document.activeElement] holds when it is read. *)
Definition getDeepActiveElement (o : Options) (active : option Element)
  : Maybe Element :=
  if document o then
    match active with
    | None => null
    | Some e => if deep o then descend e else value e
    end
  else undefined.

Record State := { activeElement : Maybe Element }.

Definition trigger (o : Options) (active : option Element) (_ : State) : State :=
  {| activeElement := getDeepActiveElement o active |}.

(** Window events; each carries the document's [activeElement] at the
    time the handler runs. *)
Inductive Event :=
| Blur (relatedTarget : Maybe Element) (active : option Element)
| Focus (active : option Element).

Definition dispatch (o : Options) (s : State) (e : Event) : State :=
  if window o then
    match e with
    | Blur null active => trigger o active s
    | Blur _ _ => s
    | Focus active => trigger o active s
    end
  else s.

(** Set-up ends with one immediate [trigger]; the cell starts out
    [undefined]. *)
Definition useActiveElement (o : Options) (active : option Element) : State :=
  trigger o active {| activeElement := undefined |}.

Definition run (o : Options) (s : State) (es : list Event) : State :=
  foldl (dispatch o) s es.

(** Specification side: what "the focused element, descended through
    nested shadow roots" means, as a relation. *)
Inductive Deepest : option Element → Maybe Element → Prop :=
| deepest_none : Deepest None null
| deepest_leaf e : shadowRoot e = None → Deepest (Some e) (value e)
| deepest_step e inner r :
    shadowRoot e = Some inner → Deepest inner r → Deepest (Some e) r.

Definition Reported (o : Options) (active : option Element) (r : Maybe Element)
  : Prop :=
  if deep o then Deepest active r
  else r = match active with Some e => value e | None => null end.

(** The reading that the last recomputing event of a trace carries. *)
Fixpoint last_reading (init : option Element) (es : list Event) : option Element :=
  match es with
  | [] => init
  | Blur null a :: es' => last_reading a es'
  | Blur _ _ :: es' => last_reading init es'
  | Focus a :: es' => last_reading a es'
  end.

(** Sample elements: a plain button, and a custom element whose open
    shadow root has an input focused. *)
Definition plain_button : Element := MkElement 1 None.
Definition inner_input : Element := MkElement 3 None.
Definition host_with_input : Element := MkElement 2 (Some (Some inner_input)).

End ActiveElement.

(** ** useElementHover *)
Module ElementHover.

Record Options := {
  delayEnter : Z;
  delayLeave : Z;
  triggerOnRemoval : bool;
  window : bool;
}.

(** The cell, the [timer] variable of the closure, and the platform's
    clock and timer queue.  A timer's closure is the value it writes. *)
Record State := {
  isHovered : bool;
  timer : option TimerHandle;
  now : Z;
  queue : Timers.timers bool;
}.

Definition toggle (o : Options) (entering : bool) (s : State) : State :=
  let delay := if entering then delayEnter o else delayLeave o in
  let s1 :=
    match timer s with
    | Some h =>
        {| isHovered := isHovered s; timer := None; now := now s;
           queue := Timers.clearTimeout h (queue s) |}
    | None => s
    end in
  if negb (delay =? 0) then
    let '(h, q) := Timers.setTimeout entering delay (now s1) (queue s1) in
    {| isHovered := isHovered s1; timer := Some h; now := now s1; queue := q |}
  else
    {| isHovered := entering; timer := timer s1; now := now s1;
       queue := queue s1 |}.

Definition useElementHover (t0 : Z) : State :=
  {| isHovered := false; timer := None; now := t0; queue := Timers.no_timers |}.

Inductive Event :=
| MouseEnter
| MouseLeave
| ElementRemoved
| Elapse (d : N).

(** The clock advances by [d] and every timer that is due fires, in
    order; a firing timer runs [isHovered.value = entering]. *)
Definition elapse (d : N) (s : State) : State :=
  let t := now s + Z.of_N d in
  let '(fired, q) := Timers.take_due t (queue s) in
  {| isHovered := foldl (fun _ entering => entering) (isHovered s) fired;
     timer := timer s; now := t; queue := q |}.

(** Without a window the composable returns before registering any
    listener. *)
Definition dispatch (o : Options) (s : State) (e : Event) : State :=
  match e with
  | MouseEnter => if window o then toggle o true s else s
  | MouseLeave => if window o then toggle o false s else s
  | ElementRemoved =>
      if window o && triggerOnRemoval o then toggle o false s else s
  | Elapse d => elapse d s
  end.

Definition run (o : Options) (s : State) (es : list Event) : State :=
  foldl (dispatch o) s es.

(** The platform never holds more than the one timer whose handle the
    closure remembers. *)
Definition single_slot (s : State) : Prop :=
  match Timers.pending (queue s) with
  | [] => True
  | [t] => timer s = Some (Timers.t_handle t)
  | _ => False
  end.

(** The delay that applies to an event, and the listener it reaches. *)
Definition delay_of (o : Options) (entering : bool) : Z :=
  if entering then delayEnter o else delayLeave o.

Definition mouse (entering : bool) : Event :=
  if entering then MouseEnter else MouseLeave.

(** The direction of the last pointer event that reached [toggle]
    (a removal counts as a leave when [triggerOnRemoval] is on). *)
Fixpoint last_direction (o : Options) (init : bool) (es : list Event) : bool :=
  match es with
  | [] => init
  | MouseEnter :: es' => last_direction o true es'
  | MouseLeave :: es' => last_direction o false es'
  | ElementRemoved :: es' =>
      last_direction o (if triggerOnRemoval o then false else init) es'
  | Elapse _ :: es' => last_direction o init es'
  end.

(** The longer of the two delays, as the platform applies them. *)
Definition max_delay (o : Options) : Z :=
  Z.max (Z.max 0 (delayEnter o)) (Z.max 0 (delayLeave o)).

(** Either the state already shows direction [dir], or the one pending
    transition will show it within [max_delay]. *)
Definition heading_to (o : Options) (dir : bool) (s : State) : Prop :=
  match Timers.pending (queue s) with
  | [] => isHovered s = dir
  | [t] => Timers.t_cb t = dir ∧ Timers.t_due t ≤ now s + max_delay o
  | _ => False
  end.

End ElementHover.

(** ** useFullscreen *)
Module Fullscreen.

(** Values found under the probed property names. *)
Inductive Value :=
| VUndefined
| VNull
| VBool (b : bool)
| VElement (id : nat)
| VFunction (settles : outcome).   (* an async platform method *)

(** A platform object: property names that are [in] it, with values. *)
Abbreviation Obj := (gmap string Value).

Definition has (o : Obj) (m : string) : bool := bool_decide (is_Some (o !! m)).
Definition get (o : Obj) (m : string) : Value := default VUndefined (o !! m).

Definition non_null (v : Value) : bool :=
  match v with VUndefined | VNull => false | _ => true end.

Definition to_boolean (v : Value) : bool :=
  match v with
  | VUndefined | VNull | VBool false => false
  | _ => true
  end.

Record Element := { el_id : nat; el_props : Obj }.
Record Document := { doc_props : Obj; documentElement : Element }.

Record Platform := {
  target : option Element;       (* [unrefElement(target)] *)
  document : option Document;
}.

Definition targetRef (P : Platform) : option Element :=
  match target P with
  | Some e => Some e
  | None => documentElement <$> document P
  end.

Definition on_either (P : Platform) (m : string) : bool :=
  match document P with Some d => has (doc_props d) m | None => false end
  || match targetRef P with Some e => has (el_props e) m | None => false end.

Definition requestMethod (P : Platform) : option string :=
  List.find (on_either P)
    ["requestFullscreen"; "webkitRequestFullscreen"; "webkitEnterFullscreen";
     "webkitEnterFullScreen"; "webkitRequestFullScreen"; "mozRequestFullScreen";
     "msRequestFullscreen"]%string.

Definition exitMethod (P : Platform) : option string :=
  List.find (on_either P)
    ["exitFullscreen"; "webkitExitFullscreen"; "webkitExitFullScreen";
     "webkitCancelFullScreen"; "mozCancelFullScreen"; "msExitFullscreen"]%string.

Definition fullscreenEnabled (P : Platform) : option string :=
  List.find (on_either P)
    ["fullScreen"; "webkitIsFullScreen"; "webkitDisplayingFullscreen";
     "mozFullScreen"; "msFullscreenElement"]%string.

Definition fullscreenElementMethod (P : Platform) : option string :=
  List.find
    (fun m => match document P with Some d => has (doc_props d) m | None => false end)
    ["fullscreenElement"; "webkitFullscreenElement"; "mozFullScreenElement";
     "msFullscreenElement"]%string.

Definition isSupported (P : Platform) : bool :=
  useSupported
    (bool_decide (is_Some (targetRef P))
     && bool_decide (is_Some (document P))
     && bool_decide (is_Some (requestMethod P))
     && bool_decide (is_Some (exitMethod P))
     && bool_decide (is_Some (fullscreenEnabled P))).

(** [document[fullscreenElementMethod] === targetRef.value] *)
Definition isCurrentElementFullScreen (P : Platform) : bool :=
  match fullscreenElementMethod P, document P with
  | Some m, Some d =>
      match get (doc_props d) m, targetRef P with
      | VElement i, Some e => Nat.eqb i (el_id e)
      | VUndefined, None => true
      | _, _ => false
      end
  | _, _ => false
  end.

(** The callers only test the result for truthiness. *)
Definition isElementFullScreen (P : Platform) : bool :=
  match fullscreenEnabled P with
  | Some fe =>
      match document P with
      | Some d =>
          if non_null (get (doc_props d) fe) then to_boolean (get (doc_props d) fe)
          else
            match targetRef P with
            | Some e =>
                if non_null (get (el_props e) fe)
                then to_boolean (get (el_props e) fe) else false
            | None => false
            end
      | None =>
          match targetRef P with
          | Some e =>
              if non_null (get (el_props e) fe)
              then to_boolean (get (el_props e) fe) else false
          | None => false
          end
      end
  | None => false
  end.

(** Calls that reach the platform, in order. *)
Inductive Call :=
| DocumentCall (m : string)
| TargetCall (m : string).

Record State := { isFullscreen : bool; calls : list Call }.

(** An [async] body: it threads the state and either runs to its end or
    stops at the first rejected [await]. *)
Definition Async := State → outcome * State.

Definition done_ : Async := fun s => (Resolved, s).

Definition andThen (a b : Async) : Async :=
  fun s => match a s with
           | (Resolved, s1) => b s1
           | (Rejected, s1) => (Rejected, s1)
           end.

Notation "a >>> b" := (andThen a b) (at level 62, right associativity).

(** [await obj[m]()]: calling something that is not a function throws. *)
Definition invoke (c : Call) (v : Value) : Async :=
  fun s =>
    match v with
    | VFunction r => (r, {| isFullscreen := isFullscreen s; calls := calls s ++ [c] |})
    | _ => (Rejected, s)
    end.

Definition set_isFullscreen (b : bool) : Async :=
  fun s => (Resolved, {| isFullscreen := b; calls := calls s |}).

Definition exit (P : Platform) : Async :=
  fun s =>
    if negb (isSupported P) || negb (isFullscreen s) then (Resolved, s)
    else
      ((match exitMethod P with
        | Some m =>
            match document P with
            | Some d =>
                if non_null (get (doc_props d) m)
                then invoke (DocumentCall m) (get (doc_props d) m)
                else
                  match targetRef P with
                  | Some e =>
                      if non_null (get (el_props e) m)
                      then invoke (TargetCall m) (get (el_props e) m)
                      else done_
                  | None => done_
                  end
            | None =>
                match targetRef P with
                | Some e =>
                    if non_null (get (el_props e) m)
                    then invoke (TargetCall m) (get (el_props e) m)
                    else done_
                | None => done_
                end
            end
        | None => done_
        end) >>>
       set_isFullscreen false) s.

Definition enter (P : Platform) : Async :=
  fun s =>
    if negb (isSupported P) || isFullscreen s then (Resolved, s)
    else
      ((if isElementFullScreen P then exit P else done_) >>>
       match requestMethod P, targetRef P with
       | Some m, Some e =>
           if non_null (get (el_props e) m)
           then invoke (TargetCall m) (get (el_props e) m) >>> set_isFullscreen true
           else done_
       | _, _ => done_
       end) s.

Definition toggle (P : Platform) : Async :=
  fun s => if isFullscreen s then exit P s else enter P s.

(** The change-event listener, also run once on mount. *)
Definition handlerCallback (P : Platform) (s : State) : State :=
  let v := isElementFullScreen P in
  if negb v || (v && isCurrentElementFullScreen P)
  then {| isFullscreen := v; calls := calls s |}
  else s.

Definition useFullscreen : State := {| isFullscreen := false; calls := [] |}.

Definition is_exit_call (P : Platform) (c : Call) : bool :=
  match exitMethod P, c with
  | Some m, DocumentCall m' | Some m, TargetCall m' => String.eqb m m'
  | None, _ => false
  end.

(** Sample platforms.  A video element with the standard request
    method, on a page whose document exposes the standard exit method,
    the WebKit detection flag and the fullscreen element. *)
Definition video (request : outcome) : Element :=
  {| el_id := 1;
     el_props := {[ "requestFullscreen"%string := VFunction request ]} |}.

Definition root : Element := {| el_id := 0; el_props := ∅ |}.

(** [other] is the element, if any, that is in fullscreen right now. *)
Definition page (request : outcome) (other : option nat) : Platform :=
  {| target := Some (video request);
     document :=
       Some {| doc_props :=
                 <["exitFullscreen"%string := VFunction Resolved]>
                 (<["webkitIsFullScreen"%string := VBool (bool_decide (is_Some other))]>
                 (<["fullscreenElement"%string :=
                      match other with Some i => VElement i | None => VNull end]> ∅));
               documentElement := root |} |}.

(** A platform without any fullscreen API: same elements, no methods. *)
Definition bare_page : Platform :=
  {| target := Some {| el_id := 1; el_props := ∅ |};
     document := Some {| doc_props := ∅; documentElement := root |} |}.

(** The controller's methods as a caller issues them, each against the
    platform as it stands at that moment. *)
Inductive Op := Enter | Exit | Toggle.

Definition call_op (s : State) (c : Platform * Op) : State :=
  match c with
  | (P, Enter) => snd (enter P s)
  | (P, Exit) => snd (exit P s)
  | (P, Toggle) => snd (toggle P s)
  end.

Definition call_ops (s : State) (cs : list (Platform * Op)) : State :=
  foldl call_op s cs.

End Fullscreen.

(** ** useClipboard *)
Module Clipboard.

Inductive PermissionState := granted | denied | prompt.

(** The injected navigator: whether it has a [clipboard] property. *)
Record Navigator := { has_clipboard : bool }.

Record Options := {
  navigator : option Navigator;
  read : bool;
  copiedDuring : Z;
  legacy : bool;
}.

(** What the platform answers during one call of [copy]. *)
Record Env := {
  source_now : Maybe string;                 (* [toValue(source)] *)
  permissionWrite : option PermissionState;  (* [permissionWrite.value] *)
  writeText : outcome;                       (* how the write settles *)
}.

(** Everything the composable does to the platform, in order. *)
Inductive Effect :=
| ClipboardWriteText (v : string)
| CreateElement (tag : string)
| SetValue (v : string)
| SetStyle (k v : string)
| SetAttribute (k v : string)
| AppendChild
| Select
| ExecCommand (cmd : string)
| Remove.

Record State := {
  text : string;
  copied : bool;
  timeout : option TimerHandle;     (* the handle held by the reset timer *)
  now : Z;
  queue : Timers.timers unit;
  effects : list Effect;
}.

Definition isClipboardApiSupported (o : Options) : bool :=
  useSupported
    (match navigator o with Some n => has_clipboard n | None => false end).

Definition isSupported (o : Options) : bool :=
  isClipboardApiSupported o || legacy o.

Definition isAllowed (status : option PermissionState) : bool :=
  match status with
  | Some granted | Some prompt => true
  | _ => false
  end.

Definition perform (es : list Effect) (s : State) : State :=
  {| text := text s; copied := copied s; timeout := timeout s; now := now s;
     queue := queue s; effects := effects s ++ es |}.

(** The browser's global [document] is assumed present, so none of
    these DOM calls throws. *)
Definition legacyCopy_calls (v : string) : list Effect :=
  [CreateElement "textarea"; SetValue v; SetStyle "position" "absolute";
   SetStyle "opacity" "0"; SetAttribute "readonly" EmptyString;
   AppendChild; Select; ExecCommand "copy"; Remove]%string.

Definition legacyCopy (v : string) (s : State) : State :=
  perform (legacyCopy_calls v) s.

Definition is_legacy_effect (e : Effect) : bool :=
  match e with ClipboardWriteText _ => false | _ => true end.

(** Modelled from the spec: [useTimeoutFn] is not among the sources.  Per
    the spec the reset timer is "single-shot and explicitly
    cancelled/replaced on re-trigger" and "each new copy restarts the
    timer": [start] drops the pending timer, if any, and schedules the
    callback [copiedDuring] ms from now. *)
Definition timeout_start (o : Options) (s : State) : State :=
  let q := match timeout s with
           | Some h => Timers.clearTimeout h (queue s)
           | None => queue s
           end in
  let '(h, q') := Timers.setTimeout tt (copiedDuring o) (now s) q in
  {| text := text s; copied := copied s; timeout := Some h; now := now s;
     queue := q'; effects := effects s |}.

(** The default parameter [value = toValue(source)] applies only to an
    argument that is [undefined]. *)
Definition resolve (arg : Maybe string) (env : Env) : Maybe string :=
  match arg with undefined => source_now env | _ => arg end.

(** A call is one step, taken at the instant its write has settled. *)
Definition copy (o : Options) (arg : Maybe string) (env : Env) (s : State)
  : outcome * State :=
  match resolve arg env with
  | value v =>
      if isSupported o then
        let useLegacy :=
          negb (isClipboardApiSupported o && isAllowed (permissionWrite env)) in
        let '(useLegacy, s1) :=
          if negb useLegacy then
            (match writeText env with Resolved => false | Rejected => true end,
             perform [ClipboardWriteText v] s)
          else (useLegacy, s) in
        let s2 := if useLegacy then legacyCopy v s1 else s1 in
        (Resolved,
         timeout_start o
           {| text := v; copied := true; timeout := timeout s2; now := now s2;
              queue := queue s2; effects := effects s2 |})
      else (Resolved, s)
  | _ => (Resolved, s)
  end.

Definition useClipboard (t0 : Z) : State :=
  {| text := EmptyString; copied := false; timeout := None; now := t0;
     queue := Timers.no_timers; effects := [] |}.

(** The clock advances; a reset timer that is due runs
    [copied.value = false]. *)
Definition elapse (d : N) (s : State) : State :=
  let t := now s + Z.of_N d in
  let '(fired, q) := Timers.take_due t (queue s) in
  match fired with
  | [] => {| text := text s; copied := copied s; timeout := timeout s;
             now := t; queue := q; effects := effects s |}
  | _ :: _ => {| text := text s; copied := false; timeout := None;
                 now := t; queue := q; effects := effects s |}
  end.

Inductive Event :=
| Copy (arg : Maybe string) (env : Env)
| Elapse (d : N).

Definition dispatch (o : Options) (s : State) (e : Event) : State :=
  match e with
  | Copy arg env => snd (copy o arg env s)
  | Elapse d => elapse d s
  end.

Definition run (o : Options) (s : State) (es : list Event) : State :=
  foldl (dispatch o) s es.

(** What a call added to the log of platform effects. *)
Definition performed (s s' : State) : list Effect :=
  drop (length (effects s)) (effects s').

Definition legacy_invoked (s s' : State) : bool :=
  existsb is_legacy_effect (performed s s').

(** The platform holds at most the one reset timer the instance
    remembers. *)
Definition single_slot (s : State) : Prop :=
  match Timers.pending (queue s) with
  | [] => True
  | [t] => timeout s = Some (Timers.t_handle t)
  | _ => False
  end.

(** Sample instances and answers of the platform. *)
Definition modern_only : Options :=
  {| navigator := Some {| has_clipboard := true |}; read := false;
     copiedDuring := 1500; legacy := false |}.

Definition no_clipboard : Options :=
  {| navigator := Some {| has_clipboard := false |}; read := false;
     copiedDuring := 1500; legacy := false |}.

Definition answer (p : option PermissionState) (w : outcome) : Env :=
  {| source_now := undefined; permissionWrite := p; writeText := w |}.

(** What the platform answers during one run of [updateText]. *)
Record ReadEnv := {
  permissionRead : option PermissionState;  (* [permissionRead.value] *)
  readText : option string;                 (* [None]: the read rejects *)
  selection : Maybe string;   (* [document?.getSelection?.()?.toString()] *)
}.

(** [... ?? ''] *)
Definition legacyRead (env : ReadEnv) : string :=
  match selection env with value t => t | _ => EmptyString end.

Definition set_text (t : string) (s : State) : State :=
  {| text := t; copied := copied s; timeout := timeout s; now := now s;
     queue := queue s; effects := effects s |}.

Definition updateText (o : Options) (env : ReadEnv) (s : State) : State :=
  let useLegacy :=
    negb (isClipboardApiSupported o && isAllowed (permissionRead env)) in
  if negb useLegacy then
    match readText env with
    | Some t => set_text t s
    | None => set_text (legacyRead env) s
    end
  else set_text (legacyRead env) s.

(** Everything that can happen to an instance: calls and clock advances
    as before, and the page's [copy]/[cut] events, which reach
    [updateText] only when set-up registered the listener. *)
Inductive PageEvent :=
| Own (e : Event)
| CopyOrCut (env : ReadEnv).

Definition deliver (o : Options) (s : State) (e : PageEvent) : State :=
  match e with
  | Own e => dispatch o s e
  | CopyOrCut env => if isSupported o && read o then updateText o env s else s
  end.

Definition play (o : Options) (s : State) (es : list PageEvent) : State :=
  foldl (deliver o) s es.

(** The flag is up only while a reset timer is pending that is due
    within [copiedDuring] ms. *)
Definition flag_backed (o : Options) (s : State) : Prop :=
  copied s = true →
  ∃ t, Timers.pending (queue s) = [t] ∧
       Timers.t_due t ≤ now s + Z.max 0 (copiedDuring o).

(** A reader of the clipboard with the legacy fallback enabled. *)
Definition reader : Options :=
  {| navigator := Some {| has_clipboard := true |}; read := true;
     copiedDuring := 1500; legacy := true |}.

End Clipboard.

(** ** useCssVar *)
Module CssVar.

(** An inline style declaration block. *)
Abbreviation Style := (gmap string string).

Definition removeProperty (k : string) (st : Style) : Style := delete k st.

(** Setting a property to the empty string removes it. *)
Definition setProperty (k v : string) (st : Style) : Style :=
  if String.eqb v EmptyString then delete k st else <[k:=v]> st.

Definition getPropertyValue (k : string) (st : Style) : string :=
  default EmptyString (st !! k).

Fixpoint trimStart (s : string) : string :=
  match s with
  | String a s' => if Ascii.is_space a then trimStart s' else s
  | EmptyString => EmptyString
  end.

(** [String.prototype.trim] on the white space of the ASCII range. *)
Definition trim (s : string) : string :=
  String.rev (trimStart (String.rev (trimStart s))).

Record Options := {
  window : bool;
  initialValue : Maybe string;
  observe : bool;
}.

Record State := {
  prop : Maybe string;        (* [toValue(prop)] *)
  el : option (option Style); (* [elRef.value], and its [style] if any *)
  variable : Maybe string;
}.

Global Instance Maybe_string_eq_dec : EqDecision (Maybe string).
Proof. solve_decision. Defined.

(** The callback of the watcher on [[variable, elRef]]. *)
Definition write_watch (s : State) : State :=
  match el s, prop s with
  | Some (Some st), value raw_prop =>
      if truthy (prop s) then
        {| prop := prop s;
           el := Some (Some (match variable s with
                             | value val => setProperty raw_prop val st
                             | _ => removeProperty raw_prop st
                             end));
           variable := variable s |}
      else s
  | _, _ => s
  end.

(** [variable.value = v]: the watcher runs when the value changed. *)
Definition assign (v : Maybe string) (s : State) : State :=
  if bool_decide (v = variable s) then s
  else write_watch {| prop := prop s; el := el s; variable := v |}.

(** [reading] is what [getComputedStyle(el).getPropertyValue(key)]
    returns when it is called. *)
Definition updateCssVar (o : Options) (reading : string) (s : State) : State :=
  if bool_decide (is_Some (el s)) && window o && truthy (prop s) then
    assign (js_or (js_or (value (trim reading)) (variable s)) (initialValue o)) s
  else s.

(** Set-up: the first watcher reads once (no watcher on [variable]
    exists yet), then the second watcher is created and runs at once. *)
Definition useCssVar (o : Options) (p : Maybe string) (e : option (option Style))
    (reading : string) : State :=
  let s0 := {| prop := p; el := e; variable := initialValue o |} in
  let v :=
    if bool_decide (is_Some e) && window o && truthy p
    then js_or (js_or (value (trim reading)) (variable s0)) (initialValue o)
    else variable s0 in
  write_watch {| prop := p; el := e; variable := v |}.

Inductive Event :=
| SetVariable (v : Maybe string)   (* the caller writes the returned ref *)
| Mutation (reading : string)      (* style/class mutation observed *)
| Restyle (st : Style).            (* someone else rewrites the inline style *)

Definition dispatch (o : Options) (s : State) (e : Event) : State :=
  match e with
  | SetVariable v => assign v s
  | Mutation reading => if observe o then updateCssVar o reading s else s
  | Restyle st =>
      match el s with
      | Some (Some _) => {| prop := prop s; el := Some (Some st); variable := variable s |}
      | _ => s
      end
  end.

Definition run (o : Options) (s : State) (es : list Event) : State :=
  foldl (dispatch o) s es.

Definition style_of (s : State) : Style :=
  match el s with Some (Some st) => st | _ => ∅ end.

(** The last reading of a list that is not blank, trimmed. *)
Definition last_nonempty (rs : list string) : option string :=
  last (List.filter (fun r => negb (String.eqb r EmptyString)) (map trim rs)).

(** The read path run once per reading, in order. *)
Definition readings (o : Options) (s : State) (rs : list string) : State :=
  foldl (fun s r => updateCssVar o r s) s rs.

(** The conditions under which [updateCssVar] reads at all. *)
Definition can_read (o : Options) (s : State) : Prop :=
  is_Some (el s) ∧ window o = true ∧ truthy (prop s) = true.

(** The inline declaration that corresponds to a bound value. *)
Definition declared (v : Maybe string) : option string :=
  match v with
  | value str => if String.eqb str EmptyString then None else Some str
  | _ => None
  end.

(** The element's property mirrors the bound value. *)
Definition mirrors (s : State) : Prop :=
  match el s, prop s with
  | Some (Some st), value p => p ≠ EmptyString → st !! p = declared (variable s)
  | _, _ => True
  end.

(** Events of the binding itself, as opposed to foreign style edits. *)
Definition own_event (e : Event) : bool :=
  match e with Restyle _ => false | _ => true end.

(** What the bound value should be after the readings [rs]. *)
Definition holds (o : Options) (rs : list string) : Maybe string :=
  match last_nonempty rs with
  | Some r => value r
  | None => initialValue o
  end.

(** Sample binding: [--color] on an element styled inline. *)
Definition themed : State :=
  {| prop := value "--color"%string;
     el := Some (Some {[ "--color"%string := "red"%string ]});
     variable := value "red"%string |}.

Definition defaults : Options :=
  {| window := true; initialValue := value "blue"%string; observe := false |}.

(** The callback of the watcher on [[elRef, prop]] when the property
    name changes to [p'] (the target staying the same): the old property
    is removed from the element, then the new one is read.  Without a
    [style] on the old target the removal throws and the read is
    skipped. *)
Definition rename (o : Options) (p' : Maybe string) (reading : string)
    (s : State) : State :=
  if bool_decide (p' = prop s) then s
  else
    match el s, prop s with
    | Some (Some st), value old =>
        if truthy (prop s) then
          updateCssVar o reading
            {| prop := p'; el := Some (Some (removeProperty old st));
               variable := variable s |}
        else updateCssVar o reading {| prop := p'; el := el s; variable := variable s |}
    | Some None, value old =>
        if truthy (prop s) then {| prop := p'; el := el s; variable := variable s |}
        else updateCssVar o reading {| prop := p'; el := el s; variable := variable s |}
    | _, _ => updateCssVar o reading {| prop := p'; el := el s; variable := variable s |}
    end.

End CssVar.

(** ** useBrowserLocation *)
Module BrowserLocation.

Definition WRITABLE_PROPERTIES : list string :=
  ["hash"; "host"; "hostname"; "href"; "pathname"; "port"; "protocol";
   "search"]%string.

Record History := { hist_state : Maybe string; hist_length : nat }.

(** What the window holds when it is read; either object may be missing. *)
Record Window := {
  location : option (gmap string string);
  history : option History;
}.

(** [obj[key]] on the location object. *)
Definition read (loc : gmap string string) (key : string) : Maybe string :=
  match loc !! key with Some x => value x | None => undefined end.

(** [window?.location?.[key]] *)
Definition lookup_location (w : option Window) (key : string) : Maybe string :=
  match w with
  | Some {| location := Some loc |} => read loc key
  | _ => undefined
  end.

Record BrowserLocationState := {
  trigger : string;
  state : Maybe string;
  length : Maybe nat;
  origin : Maybe string;
}.

(** The eight refs, the state cell built around them, and the
    assignments made to [window.location], in order. *)
Record State := {
  has_window : bool;
  refs : gmap string (Maybe string);
  cell : BrowserLocationState;
  navigations : list (string * Maybe string);
}.

(** The watcher of one ref. *)
Definition watcher (w : option Window) (key : string) (v : Maybe string)
    (s : State) : State :=
  match w with
  | Some {| location := Some loc |} =>
      if bool_decide (read loc key = v) then s
      else {| has_window := has_window s; refs := refs s; cell := cell s;
              navigations := navigations s ++ [(key, v)] |}
  | _ => s
  end.

(** [refs[key].value = v]: the watcher runs when the value changed. *)
Definition set_ref (w : option Window) (s : State) (key : string)
    (v : Maybe string) : State :=
  if bool_decide (refs s !! key = Some v) then s
  else watcher w key v
         {| has_window := has_window s; refs := <[key := v]> (refs s);
            cell := cell s; navigations := navigations s |}.

(** [for (const key of keys) refs[key].value = window?.location?.[key]] *)
Definition assign_all (w : option Window) (s : State) (keys : list string)
    : State :=
  foldl (λ s key, set_ref w s key (lookup_location w key)) s keys.

(** The object passed to [reactive]: the trigger, what history and
    location hold, and the refs as they are after the assignments. *)
Definition pack (w : option Window) (trig : string) (s' : State) : State :=
  {| has_window := has_window s'; refs := refs s';
     cell := {| trigger := trig;
                state := match w with
                         | Some {| history := Some h |} => hist_state h
                         | _ => undefined
                         end;
                length := match w with
                          | Some {| history := Some h |} => value (hist_length h)
                          | _ => undefined
                          end;
                origin := lookup_location w "origin" |};
     navigations := navigations s' |}.

Definition buildState (w : option Window) (trig : string) (s : State) : State :=
  pack w trig (assign_all w s WRITABLE_PROPERTIES).

Definition useBrowserLocation (w : option Window) : State :=
  buildState w "load"
    {| has_window := bool_decide (is_Some w);
       refs := list_to_map ((λ k, (k, undefined)) <$> WRITABLE_PROPERTIES);
       cell := {| trigger := EmptyString; state := undefined;
                  length := undefined; origin := undefined |};
       navigations := [] |}.

(** Window events, and a write to one field of the returned state; each
    comes with the window's contents at that moment. *)
Inductive Event :=
| PopState (w : Window)
| HashChange (w : Window)
| Write (key : string) (v : Maybe string) (w : Window).

Definition seen (s : State) (w : Window) : option Window :=
  if has_window s then Some w else None.

Definition dispatch (s : State) (e : Event) : State :=
  match e with
  | PopState w => if has_window s then buildState (Some w) "popstate" s else s
  | HashChange w => if has_window s then buildState (Some w) "hashchange" s else s
  | Write key v w => set_ref (seen s w) s key v
  end.

Definition run (s : State) (es : list Event) : State := foldl dispatch s es.

Definition is_write (e : Event) : bool :=
  match e with Write _ _ _ => true | _ => false end.

(** A sample page. *)
Definition docs_page : Window :=
  {| location :=
       Some (list_to_map
               [("hash", "#intro"); ("host", "example.com"); ("hostname", "example.com");
                ("href", "https://example.com/docs#intro"); ("pathname", "/docs");
                ("port", EmptyString); ("protocol", "https:");
                ("search", EmptyString); ("origin", "https://example.com")]%string);
     history := Some {| hist_state := null; hist_length := 3 |} |}.

End BrowserLocation.

(** ** useFavicon *)
Module Favicon.

(** A [link] element of the document head, by the attributes used. *)
Record Link := { rel : string; href : string; type : string }.

(** [icon.split('.').pop()]: what follows the last dot, the whole string
    when there is none.  [cur] is the candidate found so far. *)
Fixpoint after_last_dot (cur s : string) : string :=
  match s with
  | EmptyString => cur
  | String c s' =>
      if Ascii.eqb c "."%char then after_last_dot s' s' else after_last_dot cur s'
  end.

Definition extension (icon : string) : string := after_last_dot icon icon.

Fixpoint has_dot (s : string) : bool :=
  match s with
  | EmptyString => false
  | String c s' => Ascii.eqb c "."%char || has_dot s'
  end.

Section Binder.
(** The platform's selector engine: whether [link[rel*=...]], built from
    the configured [rel], selects a given link. *)
Variable selects : string → Link → bool.
Variables (baseUrl rel_ : string).

(** [document] is the list of the head's link elements in order, if
    there is a document at all. *)
Definition applyIcon (icon : string) (document : option (list Link))
    : option (list Link) :=
  match document with
  | None => None
  | Some head =>
      if existsb (selects rel_) head then
        Some (map (λ el, if selects rel_ el
                         then {| rel := rel el; href := baseUrl ++ icon;
                                 type := type el |}
                         else el) head)
      else
        Some (head ++ [{| rel := rel_; href := baseUrl ++ icon;
                          type := "image/" ++ extension icon |}])
  end.

Record State := { favicon : Maybe string; document : option (list Link) }.

(** The watcher's callback, with the new and the old value. *)
Definition on_change (i o : Maybe string) (s : State) : State :=
  match i with
  | value icon =>
      if bool_decide (i ≠ o)
      then {| favicon := favicon s; document := applyIcon icon (document s) |}
      else s
  | _ => s
  end.

(** [favicon.value = v]: the watcher runs when the value changed. *)
Definition set_favicon (s : State) (v : Maybe string) : State :=
  if bool_decide (v = favicon s) then s
  else on_change v (favicon s) {| favicon := v; document := document s |}.

(** Set-up: the watcher runs at once, with no old value. *)
Definition useFavicon (newIcon : Maybe string) (doc : option (list Link)) : State :=
  on_change newIcon undefined {| favicon := newIcon; document := doc |}.

Definition run (s : State) (vs : list (Maybe string)) : State :=
  foldl set_favicon s vs.

Definition links (s : State) : list Link := default [] (document s).

(** The shape a head can have after any number of updates: the links it
    started with, and at most one appended link carrying the configured
    [rel], present only if the selector found nothing to begin with. *)
Definition grown_from (head h : list Link) : Prop :=
  map rel h = map rel head ∨
  (map rel h = map rel head ++ [rel_] ∧ existsb (selects rel_) head = false).

End Binder.

(** A selector engine for plain [rel] values: substring match, and an
    empty pattern selects nothing. *)
Fixpoint contains (sub s : string) : bool :=
  String.prefix sub s ||
  match s with String _ s' => contains sub s' | EmptyString => false end.

Definition substring_selector (r : string) (el : Link) : bool :=
  negb (String.eqb r EmptyString) && contains r (rel el).

Definition sample_head : list Link :=
  [{| rel := "stylesheet"; href := "/main.css"; type := "text/css" |};
   {| rel := "shortcut icon"; href := "/old.ico"; type := "image/x-icon" |};
   {| rel := "icon"; href := "/old.png"; type := "image/png" |}]%string.

End Favicon.

(** * Properties *)

Lemma total_nonneg ws : 0 ≤ total ws.
Proof. induction ws as [|d ws IH]; simpl; lia. Qed.

(** ** useNetwork *)
Section NetworkFacts.
Import Network.

Lemma updateNetworkInformation_unsupported p s :
  unsupported_inv s → unsupported_inv (updateNetworkInformation p s).
Proof.
  intros [Hc Hq]. unfold updateNetworkInformation.
  destruct (has_navigator s); simpl; [| by split].
  rewrite Hc. by split.
Qed.

Lemma dispatch_unsupported s e :
  unsupported_inv s → unsupported_inv (dispatch s e).
Proof.
  intros Hs. destruct e as [p|p|p]; simpl.
  - destruct (has_window s); [| done]. destruct Hs as [Hc Hq]. by split.
  - destruct (has_window s); [| done]. destruct Hs as [Hc Hq]. by split.
  - destruct (connection s) eqn:E; [| done].
    by apply updateNetworkInformation_unsupported.
Qed.

Lemma run_unsupported es : ∀ s, unsupported_inv s → unsupported_inv (run s es).
Proof.
  induction es as [|e es IH]; intros s Hs; simpl; [done |].
  apply IH. by apply dispatch_unsupported.
Qed.

Lemma useNetwork_isSupported w p :
  isSupported (useNetwork w p) =
  match w with
  | Some w => match navigator_connection w with KeyAbsent => false | _ => true end
  | None => false
  end.
Proof.
  unfold useNetwork, updateNetworkInformation, useSupported.
  destruct w as [[[]]|]; simpl; reflexivity.
Qed.

Lemma useNetwork_unsupported w p :
  isSupported (useNetwork w p) = false → unsupported_inv (useNetwork w p).
Proof.
  rewrite useNetwork_isSupported. intros Hs.
  unfold useNetwork. apply updateNetworkInformation_unsupported.
  unfold unsupported_inv, quality_initial, useSupported; simpl.
  rewrite Hs. by repeat split.
Qed.

(** C1 (as amended).  On an instance whose [isSupported] is false,
    [downlink], [downlinkMax], [effectiveType] and [rtt] are undefined,
    [saveData] is [false] and [type] is ['unknown'] right after set-up,
    and all six keep these values after every sequence of online,
    offline and connection-change events. *)
Theorem network_unsupported_quality_stays_initial w p es :
  isSupported (useNetwork w p) = false →
  quality_initial (useNetwork w p) ∧
  quality_initial (run (useNetwork w p) es).
Proof.
  intros Hs. split.
  - by apply useNetwork_unsupported.
  - by apply run_unsupported, useNetwork_unsupported.
Qed.

Lemma network_unsupported_quality_stays_initial_witness :
  let s0 := useNetwork (Some {| navigator_connection := KeyAbsent |})
                       (reading true 1000) in
  quality_initial s0 ∧
  quality_initial
    (run s0 [Offline (reading false 2000); ConnectionChange (reading false 2500);
             Online (reading true 3000)]).
Proof.
  apply (network_unsupported_quality_stays_initial
           (Some {| navigator_connection := KeyAbsent |}) (reading true 1000)).
  reflexivity.
Defined.

(** C1 as stated fails: without support, right after set-up and after an
    offline/online round trip, [saveData] is [false] and [type] is
    ['unknown'], not undefined. *)
Lemma network_unsupported_quality_not_undefined :
  let s0 := useNetwork (Some {| navigator_connection := KeyAbsent |})
                       (reading true 1000) in
  let s1 := run s0 [Offline (reading false 2000); Online (reading true 3000)] in
  isSupported s0 = false ∧
  saveData s0 = Some false ∧ type s0 = Some unknown ∧
  saveData s1 = Some false ∧ type s1 = Some unknown ∧
  ¬ quality_undefined s0 ∧ ¬ quality_undefined s1.
Proof.
  cbv zeta. repeat split; try reflexivity.
  - intros (_ & _ & _ & _ & H & _). discriminate H.
  - intros (_ & _ & _ & _ & H & _). discriminate H.
Qed.

End NetworkFacts.

(** ** useActiveElement *)
Section ActiveElementFacts.
Import ActiveElement.

Lemma descend_Deepest : ∀ e, Deepest (Some e) (descend e).
Proof.
  fix IH 1. intros [i [[inner|]|]]; simpl.
  - eapply deepest_step; [reflexivity | apply IH].
  - eapply deepest_step; [reflexivity | constructor].
  - by apply deepest_leaf.
Qed.

Lemma Deepest_functional a r r' : Deepest a r → Deepest a r' → r = r'.
Proof.
  intros H. revert r'. induction H as [|e He|e inner r He H IH]; intros r' H'.
  - by inversion H'.
  - inversion H' as [|e' He'|e' inner' r'' He' H'']; subst; [done | congruence].
  - inversion H' as [|e' He'|e' inner' r'' He' H'']; subst; [congruence |].
    apply IH. congruence.
Qed.

(** A result of the descent hosts no further shadow root. *)
Lemma Deepest_terminal a r e : Deepest a r → r = value e → shadowRoot e = None.
Proof.
  induction 1 as [|e' He'|e' inner r He' H IH]; intros Hr.
  - discriminate.
  - by injection Hr as <-.
  - by apply IH.
Qed.

Lemma getDeepActiveElement_Reported o active r :
  document o = true →
  Reported o active r ↔ getDeepActiveElement o active = r.
Proof.
  intros Hd. unfold Reported, getDeepActiveElement. rewrite Hd.
  destruct (deep o), active as [e|]; try (split; congruence).
  - split.
    + intros H. eapply Deepest_functional; [apply descend_Deepest | apply H].
    + intros <-. apply descend_Deepest.
  - split.
    + intros H. by inversion H.
    + intros <-. constructor.
Qed.

Lemma window_document o : window o = true → document o = true.
Proof. unfold document. intros ->. by rewrite orb_true_r. Qed.

Lemma run_last_reading o es : ∀ a0 s,
  window o = true →
  activeElement s = getDeepActiveElement o a0 →
  activeElement (run o s es) = getDeepActiveElement o (last_reading a0 es).
Proof.
  induction es as [|e es IH]; intros a0 s Hw Hs; [done |].
  change (activeElement (run o (dispatch o s e) es)
          = getDeepActiveElement o (last_reading a0 (e :: es))).
  destruct e as [[| |rt] a|a]; simpl last_reading; apply IH; try done;
    unfold dispatch; rewrite Hw; done.
Qed.

(** C7.  With the listeners registered (a window exists): a blur whose
    [relatedTarget] is not [null] leaves the tracked element as it was;
    a blur with a [null] [relatedTarget] and every focus set it to the
    focused element the document reports, descended through nested
    shadow roots when [deep] is on; hence after any sequence of events
    the tracked element is the reported one of the last recomputing
    event (of set-up, if there was none). *)
Theorem activeElement_tracks_reported_focus o active0 es :
  window o = true →
  (∀ s rt active, rt ≠ null → dispatch o s (Blur rt active) = s) ∧
  (∀ s active r,
     Reported o active r ↔ activeElement (dispatch o s (Blur null active)) = r) ∧
  (∀ s active r,
     Reported o active r ↔ activeElement (dispatch o s (Focus active)) = r) ∧
  (∀ r, Reported o (last_reading active0 es) r ↔
        activeElement (run o (useActiveElement o active0) es) = r).
Proof.
  intros Hw. pose proof (window_document o Hw) as Hd.
  split; [| split; [| split]].
  - intros s rt active Hrt. unfold dispatch. rewrite Hw.
    by destruct rt.
  - intros s active r. unfold dispatch. rewrite Hw. simpl.
    by apply getDeepActiveElement_Reported.
  - intros s active r. unfold dispatch. rewrite Hw. simpl.
    by apply getDeepActiveElement_Reported.
  - intros r. rewrite (run_last_reading o es active0); [| done | done].
    by apply getDeepActiveElement_Reported.
Qed.

Lemma activeElement_tracks_reported_focus_witness :
  let o := {| window := true; options_document := false; deep := true |} in
  let es := [Focus (Some host_with_input); Blur (value plain_button) None] in
  (∀ s rt active, rt ≠ null → dispatch o s (Blur rt active) = s) ∧
  (∀ s active r,
     Reported o active r ↔ activeElement (dispatch o s (Blur null active)) = r) ∧
  (∀ s active r,
     Reported o active r ↔ activeElement (dispatch o s (Focus active)) = r) ∧
  (∀ r, Reported o (last_reading (Some plain_button) es) r ↔
        activeElement (run o (useActiveElement o (Some plain_button)) es) = r).
Proof.
  apply (activeElement_tracks_reported_focus
           {| window := true; options_document := false; deep := true |}
           (Some plain_button)
           [Focus (Some host_with_input); Blur (value plain_button) None]).
  reflexivity.
Defined.

(** The same trace, evaluated: the input inside the shadow root is
    tracked, and the same-page blur does not disturb it. *)
Example activeElement_shadow_trace :
  activeElement
    (run {| window := true; options_document := false; deep := true |}
         (useActiveElement
            {| window := true; options_document := false; deep := true |}
            (Some plain_button))
         [Focus (Some host_with_input); Blur (value plain_button) None])
  = value inner_input.
Proof. reflexivity. Qed.

End ActiveElementFacts.

(** ** useElementHover *)
Section ElementHoverFacts.
Import ElementHover.

Lemma toggle_spec o entering s :
  single_slot s →
  now (toggle o entering s) = now s ∧
  if delay_of o entering =? 0 then
    isHovered (toggle o entering s) = entering ∧
    Timers.pending (queue (toggle o entering s)) = []
  else
    isHovered (toggle o entering s) = isHovered s ∧
    timer (toggle o entering s) = Some (Timers.next_handle (queue s)) ∧
    Timers.pending (queue (toggle o entering s)) =
      [Timers.Timer (Timers.next_handle (queue s))
                    (now s + Z.max 0 (delay_of o entering)) entering].
Proof.
  unfold single_slot, toggle. fold (delay_of o entering). intros Hs.
  destruct (timer s) as [h|] eqn:Ht,
           (Timers.pending (queue s)) as [|t [|u l]] eqn:Hp;
    try done; try (by exfalso);
    destruct (delay_of o entering =? 0) eqn:Hd;
    simpl; rewrite ?Hp; simpl; try done.
  - injection Hs as ->. by rewrite Pos.eqb_refl.
  - injection Hs as ->. by rewrite Pos.eqb_refl.
Qed.

Lemma toggle_single_slot o entering s :
  single_slot s → single_slot (toggle o entering s).
Proof.
  intros Hs. destruct (toggle_spec o entering s Hs) as [_ H].
  unfold single_slot.
  destruct (delay_of o entering =? 0).
  - destruct H as [_ ->]. done.
  - destruct H as (_ & -> & ->). done.
Qed.

Lemma elapse_single_slot d s : single_slot s → single_slot (elapse d s).
Proof.
  unfold single_slot, elapse, Timers.take_due. intros Hs.
  destruct (Timers.pending (queue s)) as [|t [|u l]]; try done; simpl.
  destruct (Timers.t_due t <=? now s + Z.of_N d); simpl; done.
Qed.

Lemma dispatch_single_slot o s e : single_slot s → single_slot (dispatch o s e).
Proof.
  intros Hs. destruct e; simpl;
    repeat match goal with |- context [if ?b then _ else _] => destruct b end;
    auto using toggle_single_slot, elapse_single_slot.
Qed.

Lemma run_single_slot o es : ∀ s, single_slot s → single_slot (run o s es).
Proof.
  induction es as [|e es IH]; intros s Hs; [done |].
  apply IH. by apply dispatch_single_slot.
Qed.

Lemma run_elapse_idle o ws : ∀ s,
  Timers.pending (queue s) = [] →
  isHovered (run o s (map Elapse ws)) = isHovered s.
Proof.
  induction ws as [|d ws IH]; intros s Hp; [done |].
  change (isHovered (run o (elapse d s) (map Elapse ws)) = isHovered s).
  rewrite IH; unfold elapse, Timers.take_due; rewrite Hp; done.
Qed.

Lemma run_elapse_pending o ws : ∀ s t,
  Timers.pending (queue s) = [t] →
  (now s + total ws < Timers.t_due t →
     isHovered (run o s (map Elapse ws)) = isHovered s) ∧
  (ws ≠ [] → Timers.t_due t ≤ now s + total ws →
     isHovered (run o s (map Elapse ws)) = Timers.t_cb t).
Proof.
  induction ws as [|d ws IH]; intros s t Hp; [done |].
  change (run o s (map Elapse (d :: ws)))
    with (run o (elapse d s) (map Elapse ws)).
  pose proof (total_nonneg ws) as Hnn. simpl total.
  destruct (Timers.t_due t <=? now s + Z.of_N d) eqn:Hdue.
  - assert (Hfired : isHovered (elapse d s) = Timers.t_cb t ∧
                     Timers.pending (queue (elapse d s)) = []).
    { unfold elapse, Timers.take_due. rewrite Hp. simpl. by rewrite Hdue. }
    destruct Hfired as [Hh Hq]. rewrite (run_elapse_idle o ws _ Hq), Hh.
    split; [lia | done].
  - assert (Hkept : isHovered (elapse d s) = isHovered s ∧
                    now (elapse d s) = now s + Z.of_N d ∧
                    Timers.pending (queue (elapse d s)) = [t]).
    { unfold elapse, Timers.take_due. rewrite Hp. simpl. by rewrite Hdue. }
    destruct Hkept as (Hh & Hn & Hq).
    destruct (IH _ t Hq) as [IH1 IH2]. rewrite Hn, Hh in *.
    split.
    + intros Hlt. apply IH1. lia.
    + intros _ Hle. destruct ws as [|d' ws]; [simpl in *; lia |].
      apply IH2; [done | lia].
Qed.

(** C6.  With both delays in the range the platform's timer waits for
    as written: for every sequence of events that came before, a pointer
    enter or leave leaves at most the transition it scheduled itself in
    the platform's timer queue (whatever was pending is cancelled).
    With a delay of 0 it applies its state at once.  Otherwise the
    hover state stays what it was for as long as less than the delay
    has elapsed since the event, and holds the event's state once the
    delay has elapsed, provided no other event intervenes. *)
Theorem hover_transition_respects_delay o t0 tr entering ws :
  window o = true →
  Timers.in_range (delayEnter o) → Timers.in_range (delayLeave o) →
  let delay := delay_of o entering in
  let s := run o (useElementHover t0) tr in
  let s1 := dispatch o s (mouse entering) in
  let s2 := run o s1 (map Elapse ws) in
  Timers.pending (queue s1) =
    (if delay =? 0 then []
     else [Timers.Timer (Timers.next_handle (queue s))
                        (now s + Z.max 0 delay) entering]) ∧
  (delay = 0 → isHovered s1 = entering) ∧
  (delay ≠ 0 → isHovered s1 = isHovered s) ∧
  (delay ≠ 0 → total ws < delay → isHovered s2 = isHovered s) ∧
  (delay ≠ 0 → ws ≠ [] → Z.max 0 delay ≤ total ws → isHovered s2 = entering).
Proof.
  intros Hw _ _ delay s s1 s2.
  assert (Hs : single_slot s) by (by apply run_single_slot).
  assert (Hs1 : s1 = toggle o entering s).
  { subst s1. unfold mouse. destruct entering; simpl; by rewrite Hw. }
  destruct (toggle_spec o entering s Hs) as [Hnow Hspec].
  fold delay in Hspec. rewrite <- Hs1 in Hnow, Hspec.
  destruct (delay =? 0) eqn:Hd.
  - apply Z.eqb_eq in Hd. destruct Hspec as [Hh Hq].
    repeat split; try done.
  - apply Z.eqb_neq in Hd. destruct Hspec as (Hh & Ht & Hq).
    destruct (run_elapse_pending o ws s1 _ Hq) as [H1 H2]. simpl in H1, H2.
    fold s2 in H1, H2. rewrite Hnow, Hh in *.
    repeat split; try done.
    + intros _ Hlt. apply H1. lia.
    + intros _ Hne Hle. apply H2; [done | lia].
Qed.

Lemma hover_transition_respects_delay_witness :
  let o := {| delayEnter := 100; delayLeave := 0;
              triggerOnRemoval := false; window := true |} in
  let s := run o (useElementHover 0) [MouseLeave; Elapse 5] in
  let s1 := dispatch o s MouseEnter in
  Timers.pending (queue s1) =
    [Timers.Timer (Timers.next_handle (queue s)) (now s + Z.max 0 100) true] ∧
  (100 = 0 → isHovered s1 = true) ∧
  (100 ≠ 0 → isHovered s1 = isHovered s) ∧
  (100 ≠ 0 → total [40%N; 59%N] < 100 →
     isHovered (run o s1 (map Elapse [40%N; 59%N])) = isHovered s) ∧
  (100 ≠ 0 → [40%N; 59%N] ≠ [] → Z.max 0 100 ≤ total [40%N; 59%N] →
     isHovered (run o s1 (map Elapse [40%N; 59%N])) = true).
Proof.
  apply (hover_transition_respects_delay
           {| delayEnter := 100; delayLeave := 0;
              triggerOnRemoval := false; window := true |}
           0 [MouseLeave; Elapse 5] true [40%N; 59%N]);
    [reflexivity | unfold Timers.in_range; simpl; lia
     | unfold Timers.in_range; simpl; lia].
Defined.

(** A leave that arrives 60 ms into a 100 ms enter delay cancels the
    pending transition: the state never becomes true. *)
Example hover_enter_cancelled_by_leave :
  let o := {| delayEnter := 100; delayLeave := 0;
              triggerOnRemoval := false; window := true |} in
  isHovered (run o (useElementHover 0)
                 [MouseEnter; Elapse 60; MouseLeave; Elapse 60]) = false ∧
  isHovered (run o (useElementHover 0) [MouseEnter; Elapse 99]) = false ∧
  isHovered (run o (useElementHover 0) [MouseEnter; Elapse 100]) = true.
Proof. by vm_compute. Qed.

End ElementHoverFacts.

(** ** useFullscreen *)
Section FullscreenFacts.
Import Fullscreen.

(** [exit] does nothing unless the controller's own flag is set. *)
Lemma exit_when_not_fullscreen P s :
  isFullscreen s = false → exit P s = (Resolved, s).
Proof. intros H. unfold exit. rewrite H. by rewrite orb_true_r. Qed.

(** The calls [enter] makes: at most the request on the target. *)
Lemma enter_calls P s :
  calls (snd (enter P s)) = calls s ∨
  ∃ m, requestMethod P = Some m ∧
       calls (snd (enter P s)) = calls s ++ [TargetCall m].
Proof.
  unfold enter.
  destruct (negb (isSupported P) || isFullscreen s) eqn:Hg; [by left |].
  apply orb_false_elim in Hg as [_ Hf].
  unfold andThen.
  assert (He : (if isElementFullScreen P then exit P else done_) s = (Resolved, s)).
  { destruct (isElementFullScreen P); [by apply exit_when_not_fullscreen | done]. }
  rewrite He.
  destruct (requestMethod P) as [m|]; [| by left].
  destruct (targetRef P) as [e|]; [| by left].
  destruct (non_null (get (el_props e) m)); [| by left].
  unfold invoke, set_isFullscreen.
  destruct (get (el_props e) m) as [| | | |[]]; simpl; eauto.
Qed.

(** C2 (what the code does).  The controller is supported, its own
    flag is false (the mount-time reconciliation leaves it so) and the
    page is in fullscreen for another element; [enter] then issues the
    request on the target without any exit call before it. *)
Theorem enter_issues_no_exit_for_foreign_fullscreen :
  let P := page Resolved (Some 7%nat) in
  isSupported P = true ∧
  isElementFullScreen P = true ∧
  isCurrentElementFullScreen P = false ∧
  exitMethod P = Some "exitFullscreen"%string ∧
  isFullscreen (handlerCallback P useFullscreen) = false ∧
  enter P (handlerCallback P useFullscreen) =
    (Resolved,
     {| isFullscreen := true; calls := [TargetCall "requestFullscreen"] |}).
Proof. by vm_compute. Qed.

End FullscreenFacts.

(** ** useClipboard *)
Section ClipboardFacts.
Import Clipboard.

Lemma timeout_start_effects o s : effects (timeout_start o s) = effects s.
Proof. unfold timeout_start. by destruct (timeout s). Qed.

(** The platform effects of one call, whatever the options. *)
Lemma copy_effects o arg env s :
  effects (snd (copy o arg env s)) =
  effects s ++
    match resolve arg env with
    | value v =>
        if isSupported o then
          if isClipboardApiSupported o && isAllowed (permissionWrite env) then
            ClipboardWriteText v ::
              match writeText env with
              | Resolved => []
              | Rejected => legacyCopy_calls v
              end
          else legacyCopy_calls v
        else []
    | _ => []
    end.
Proof.
  unfold copy.
  destruct (resolve arg env) as [| |v]; simpl; rewrite ?app_nil_r; try done.
  destruct (isSupported o); simpl; rewrite ?app_nil_r; try done.
  destruct (isClipboardApiSupported o && isAllowed (permissionWrite env));
    [destruct (writeText env) |]; cbn -[timeout_start];
    rewrite timeout_start_effects; cbn; by rewrite <- ?app_assoc.
Qed.

Lemma copy_performed o arg env s :
  effects (snd (copy o arg env s)) =
  effects s ++ performed s (snd (copy o arg env s)).
Proof.
  unfold performed. rewrite copy_effects. by rewrite drop_app_length.
Qed.

(** C3 (as amended).  Whether [copy] runs the legacy selection-based
    copy is decided by support, the value and the fate of the modern
    write alone: it runs exactly when the instance is supported, the
    value is not null/undefined, and the modern write is unavailable,
    not permitted, or rejected.  The [legacy] option enters only
    through [isSupported]. *)
Theorem copy_runs_legacy_path_iff o arg env s :
  legacy_invoked s (snd (copy o arg env s)) =
    isSupported o && negb (nullish (resolve arg env)) &&
    negb (isClipboardApiSupported o && isAllowed (permissionWrite env)
          && bool_decide (writeText env = Resolved)).
Proof.
  unfold legacy_invoked, performed. rewrite copy_effects, drop_app_length.
  destruct (resolve arg env) as [| |v]; simpl; rewrite ?andb_false_r; try done.
  destruct (isSupported o); simpl; [| done].
  destruct (isClipboardApiSupported o && isAllowed (permissionWrite env)); simpl;
    [| done].
  by destruct (writeText env).
Qed.

(** C3 as stated fails: on an instance created with [legacy = false],
    both a denied permission and a rejected write make [copy] run the
    legacy copy. *)
Lemma copy_legacy_off_still_falls_back :
  legacy modern_only = false ∧
  isSupported modern_only = true ∧
  effects (snd (copy modern_only (value "x"%string) (answer (Some denied) Resolved)
                     (useClipboard 0)))
    = legacyCopy_calls "x" ∧
  effects (snd (copy modern_only (value "x"%string) (answer (Some granted) Rejected)
                     (useClipboard 0)))
    = ClipboardWriteText "x" :: legacyCopy_calls "x" ∧
  legacy_invoked (useClipboard 0)
    (snd (copy modern_only (value "x"%string) (answer (Some denied) Resolved)
               (useClipboard 0))) = true ∧
  legacy_invoked (useClipboard 0)
    (snd (copy modern_only (value "x"%string) (answer (Some granted) Rejected)
               (useClipboard 0))) = true.
Proof. by vm_compute. Qed.

Lemma copy_guard_fails o arg env s :
  isSupported o = false ∨ nullish (resolve arg env) = true →
  copy o arg env s = (Resolved, s).
Proof.
  unfold copy. intros [H|H].
  - rewrite H. by destruct (resolve arg env).
  - by destruct (resolve arg env).
Qed.

(** C10.  On an unsupported instance, or for a value that resolves to
    null/undefined, [copy] resolves and returns the state untouched:
    text, flag and reset timer are as before, and nothing was done to the
    platform. *)
Theorem copy_noop_when_unsupported_or_null o arg env s :
  isSupported o = false ∨ nullish (resolve arg env) = true →
  let r := copy o arg env s in
  fst r = Resolved ∧ snd r = s ∧
  text (snd r) = text s ∧ copied (snd r) = copied s ∧
  queue (snd r) = queue s ∧ performed s (snd r) = [].
Proof.
  intros H r. subst r. rewrite (copy_guard_fails o arg env s H). simpl.
  repeat split. unfold performed. by rewrite drop_all.
Qed.

Lemma copy_noop_when_unsupported_or_null_witness :
  (let r := copy no_clipboard (value "x"%string) (answer (Some granted) Resolved)
                 (useClipboard 0) in
   fst r = Resolved ∧ snd r = useClipboard 0 ∧
   text (snd r) = text (useClipboard 0) ∧
   copied (snd r) = copied (useClipboard 0) ∧
   queue (snd r) = queue (useClipboard 0) ∧
   performed (useClipboard 0) (snd r) = [])
  ∧
  (let r := copy modern_only null (answer (Some granted) Resolved)
                 (useClipboard 0) in
   fst r = Resolved ∧ snd r = useClipboard 0 ∧
   text (snd r) = text (useClipboard 0) ∧
   copied (snd r) = copied (useClipboard 0) ∧
   queue (snd r) = queue (useClipboard 0) ∧
   performed (useClipboard 0) (snd r) = []).
Proof.
  split.
  - apply (copy_noop_when_unsupported_or_null no_clipboard). left. reflexivity.
  - apply (copy_noop_when_unsupported_or_null modern_only). right. reflexivity.
Defined.

Lemma copy_spec o v env s :
  isSupported o = true → single_slot s →
  let s1 := snd (copy o (value v) env s) in
  text s1 = v ∧ copied s1 = true ∧ now s1 = now s ∧
  timeout s1 = Some (Timers.next_handle (queue s)) ∧
  Timers.pending (queue s1) =
    [Timers.Timer (Timers.next_handle (queue s))
                  (now s + Z.max 0 (copiedDuring o)) tt].
Proof.
  intros Hsup Hs. unfold copy, resolve. rewrite Hsup.
  unfold single_slot in Hs.
  destruct (isClipboardApiSupported o && isAllowed (permissionWrite env));
    simpl; [destruct (writeText env) |]; simpl;
    unfold timeout_start; simpl;
    destruct (timeout s) as [h|] eqn:Ht,
             (Timers.pending (queue s)) as [|t [|u l]] eqn:Hp;
    try done; try (by exfalso); simpl; rewrite ?Hp; simpl; try done;
    injection Hs as ->; by rewrite Pos.eqb_refl.
Qed.

Lemma copy_single_slot o arg env s :
  single_slot s → single_slot (snd (copy o arg env s)).
Proof.
  intros Hs.
  destruct (resolve arg env) as [| |v] eqn:Hr;
    [ by rewrite copy_guard_fails; [| right; rewrite Hr]
    | by rewrite copy_guard_fails; [| right; rewrite Hr] |].
  destruct (isSupported o) eqn:Hsup;
    [| by rewrite copy_guard_fails; [| left]].
  assert (Hc : copy o arg env s = copy o (value v) env s).
  { unfold copy. rewrite Hr. unfold resolve. done. }
  rewrite Hc. destruct (copy_spec o v env s Hsup Hs) as (_ & _ & _ & Ht & Hq).
  unfold single_slot. by rewrite Hq, Ht.
Qed.

Lemma clip_elapse_single_slot d s : single_slot s → single_slot (elapse d s).
Proof.
  unfold single_slot, elapse, Timers.take_due. intros Hs.
  destruct (Timers.pending (queue s)) as [|t [|u l]]; try done; simpl.
  destruct (Timers.t_due t <=? now s + Z.of_N d); simpl; done.
Qed.

Lemma clip_run_single_slot o es : ∀ s, single_slot s → single_slot (run o s es).
Proof.
  induction es as [|e es IH]; intros s Hs; [done |].
  apply IH. destruct e; simpl;
    auto using copy_single_slot, clip_elapse_single_slot.
Qed.

Lemma clip_run_elapse_idle o ws : ∀ s,
  Timers.pending (queue s) = [] →
  copied (run o s (map Elapse ws)) = copied s ∧
  text (run o s (map Elapse ws)) = text s.
Proof.
  induction ws as [|d ws IH]; intros s Hp; [done |].
  change (run o s (map Elapse (d :: ws)))
    with (run o (elapse d s) (map Elapse ws)).
  destruct (IH (elapse d s)) as [-> ->];
    unfold elapse, Timers.take_due; rewrite Hp; done.
Qed.

Lemma clip_run_elapse_pending o ws : ∀ s t,
  Timers.pending (queue s) = [t] →
  (now s + total ws < Timers.t_due t →
     copied (run o s (map Elapse ws)) = copied s ∧
     text (run o s (map Elapse ws)) = text s) ∧
  (ws ≠ [] → Timers.t_due t ≤ now s + total ws →
     copied (run o s (map Elapse ws)) = false ∧
     text (run o s (map Elapse ws)) = text s).
Proof.
  induction ws as [|d ws IH]; intros s t Hp; [done |].
  change (run o s (map Elapse (d :: ws)))
    with (run o (elapse d s) (map Elapse ws)).
  pose proof (total_nonneg ws) as Hnn. simpl total.
  destruct (Timers.t_due t <=? now s + Z.of_N d) eqn:Hdue.
  - assert (Hfired : copied (elapse d s) = false ∧ text (elapse d s) = text s ∧
                     Timers.pending (queue (elapse d s)) = []).
    { unfold elapse, Timers.take_due. rewrite Hp. simpl. by rewrite Hdue. }
    destruct Hfired as (Hc & Ht & Hq).
    destruct (clip_run_elapse_idle o ws _ Hq) as [-> ->]. rewrite Hc, Ht.
    split; [lia | done].
  - assert (Hkept : copied (elapse d s) = copied s ∧ text (elapse d s) = text s ∧
                    now (elapse d s) = now s + Z.of_N d ∧
                    Timers.pending (queue (elapse d s)) = [t]).
    { unfold elapse, Timers.take_due. rewrite Hp. simpl. by rewrite Hdue. }
    destruct Hkept as (Hc & Ht & Hn & Hq).
    destruct (IH _ t Hq) as [IH1 IH2]. rewrite Hn, Hc, Ht in *.
    split.
    + intros Hlt. apply IH1. lia.
    + intros _ Hle. destruct ws as [|d' ws]; [simpl in *; lia |].
      apply IH2; [done | lia].
Qed.

(** C5.  On a supported instance, whatever happened before, [copy(v)]
    with a string [v] sets the tracked text to [v] and [copied] to
    true.  With no further copy, [copied] is still true while less
    than [copiedDuring] ms have passed since this copy and is false
    once [copiedDuring] ms have passed: the timer of any earlier copy
    has been replaced, so it cannot reset the flag early. *)
Theorem copy_sets_text_and_transient_flag o t0 tr v env ws :
  isSupported o = true →
  let s := run o (useClipboard t0) tr in
  let s1 := snd (copy o (value v) env s) in
  let s2 := run o s1 (map Elapse ws) in
  text s1 = v ∧ copied s1 = true ∧
  Timers.pending (queue s1) =
    [Timers.Timer (Timers.next_handle (queue s))
                  (now s + Z.max 0 (copiedDuring o)) tt] ∧
  (total ws < copiedDuring o → copied s2 = true ∧ text s2 = v) ∧
  (ws ≠ [] → Z.max 0 (copiedDuring o) ≤ total ws →
     copied s2 = false ∧ text s2 = v).
Proof.
  intros Hsup s s1 s2.
  assert (Hs : single_slot s) by (by apply clip_run_single_slot).
  destruct (copy_spec o v env s Hsup Hs) as (Ht & Hc & Hn & _ & Hq).
  fold s1 in Ht, Hc, Hn, Hq.
  destruct (clip_run_elapse_pending o ws s1 _ Hq) as [H1 H2]. simpl in H1, H2.
  fold s2 in H1, H2. rewrite Hn, Hc, Ht in *.
  repeat split; try done.
  - apply H1. lia.
  - apply H1. lia.
  - apply H2; [done | lia].
  - apply H2; [done | lia].
Qed.

Lemma copy_sets_text_and_transient_flag_witness :
  let o := modern_only in
  let env := answer (Some granted) Resolved in
  let s := run o (useClipboard 0) [Copy (value "a"%string) env; Elapse 1000] in
  let s1 := snd (copy o (value "b"%string) env s) in
  text s1 = "b"%string ∧ copied s1 = true ∧
  Timers.pending (queue s1) =
    [Timers.Timer (Timers.next_handle (queue s)) (now s + Z.max 0 1500) tt] ∧
  (total [1000%N; 499%N] < 1500 →
     copied (run o s1 (map Elapse [1000%N; 499%N])) = true ∧
     text (run o s1 (map Elapse [1000%N; 499%N])) = "b"%string) ∧
  ([1000%N; 499%N] ≠ [] → Z.max 0 1500 ≤ total [1000%N; 499%N] →
     copied (run o s1 (map Elapse [1000%N; 499%N])) = false ∧
     text (run o s1 (map Elapse [1000%N; 499%N])) = "b"%string).
Proof.
  apply (copy_sets_text_and_transient_flag modern_only 0
           [Copy (value "a"%string) (answer (Some granted) Resolved); Elapse 1000]
           "b"%string (answer (Some granted) Resolved) [1000%N; 499%N]).
  reflexivity.
Defined.

(** A second copy 1000 ms after the first keeps the flag up past the
    first copy's deadline; it drops 1500 ms after the second copy. *)
Example copy_restarts_reset_timer :
  let env := answer (Some granted) Resolved in
  copied (run modern_only (useClipboard 0)
              [Copy (value "a"%string) env; Elapse 1000;
               Copy (value "b"%string) env; Elapse 1000]) = true ∧
  copied (run modern_only (useClipboard 0)
              [Copy (value "a"%string) env; Elapse 1000;
               Copy (value "b"%string) env; Elapse 1000; Elapse 500]) = false ∧
  copied (run modern_only (useClipboard 0)
              [Copy (value "a"%string) env; Elapse 1500]) = false.
Proof. by vm_compute. Qed.

End ClipboardFacts.

(** ** Rejected platform promises *)
Section RejectionFacts.

(** C4 (as amended).  A rejected fullscreen request is not caught by
    [enter]: the promise [enter] returns rejects as well, and
    [isFullscreen] stays false.  A rejected clipboard write inside
    [copy] is caught: [copy] resolves, having run the legacy copy after
    the failed write and updated text and flag. *)
Theorem rejected_request_propagates_rejected_write_is_caught :
  (∀ P s m e,
     Fullscreen.isSupported P = true →
     Fullscreen.isFullscreen s = false →
     Fullscreen.requestMethod P = Some m →
     Fullscreen.targetRef P = Some e →
     Fullscreen.get (Fullscreen.el_props e) m = Fullscreen.VFunction Rejected →
     Fullscreen.enter P s =
       (Rejected,
        {| Fullscreen.isFullscreen := false;
           Fullscreen.calls := Fullscreen.calls s ++ [Fullscreen.TargetCall m] |})) ∧
  (∀ o v env s,
     Clipboard.isClipboardApiSupported o = true →
     Clipboard.isAllowed (Clipboard.permissionWrite env) = true →
     Clipboard.writeText env = Rejected →
     let r := Clipboard.copy o (value v) env s in
     fst r = Resolved ∧
     Clipboard.performed s (snd r) =
       Clipboard.ClipboardWriteText v :: Clipboard.legacyCopy_calls v ∧
     Clipboard.text (snd r) = v ∧ Clipboard.copied (snd r) = true).
Proof.
  split.
  - intros P [f cs] m e Hsup Hf Hm Ht Hv. simpl in Hf. subst f.
    unfold Fullscreen.enter. rewrite Hsup. simpl.
    unfold Fullscreen.andThen.
    assert (He : (if Fullscreen.isElementFullScreen P
                  then Fullscreen.exit P else Fullscreen.done_)
                   {| Fullscreen.isFullscreen := false; Fullscreen.calls := cs |}
                 = (Resolved,
                    {| Fullscreen.isFullscreen := false; Fullscreen.calls := cs |})).
    { destruct (Fullscreen.isElementFullScreen P);
        [by apply exit_when_not_fullscreen | done]. }
    rewrite He, Hm, Ht, Hv. reflexivity.
  - intros o v env s Hapi Hperm Hw r.
    assert (Hsup : Clipboard.isSupported o = true).
    { unfold Clipboard.isSupported. by rewrite Hapi. }
    split; [| split].
    + subst r. unfold Clipboard.copy, Clipboard.resolve.
      rewrite Hsup, Hapi, Hperm, Hw. reflexivity.
    + pose proof (copy_effects o (value v) env s) as He.
      unfold Clipboard.resolve in He. rewrite Hsup, Hapi, Hperm, Hw in He.
      subst r. unfold Clipboard.performed. rewrite He.
      by rewrite drop_app_length.
    + subst r. unfold Clipboard.copy, Clipboard.resolve.
      rewrite Hsup, Hapi, Hperm, Hw. cbn -[Clipboard.timeout_start].
      unfold Clipboard.timeout_start.
      by destruct (Clipboard.timeout s).
Qed.

Lemma rejected_request_propagates_rejected_write_is_caught_witness :
  Fullscreen.enter (Fullscreen.page Rejected None) Fullscreen.useFullscreen =
    (Rejected,
     {| Fullscreen.isFullscreen := false;
        Fullscreen.calls := [] ++ [Fullscreen.TargetCall "requestFullscreen"] |}) ∧
  (let r := Clipboard.copy Clipboard.modern_only (value "x"%string)
              (Clipboard.answer (Some Clipboard.granted) Rejected)
              (Clipboard.useClipboard 0) in
   fst r = Resolved ∧
   Clipboard.performed (Clipboard.useClipboard 0) (snd r) =
     Clipboard.ClipboardWriteText "x" :: Clipboard.legacyCopy_calls "x" ∧
   Clipboard.text (snd r) = "x"%string ∧ Clipboard.copied (snd r) = true).
Proof.
  split.
  - apply (proj1 rejected_request_propagates_rejected_write_is_caught
             (Fullscreen.page Rejected None) Fullscreen.useFullscreen
             "requestFullscreen"%string (Fullscreen.video Rejected));
      by vm_compute.
  - apply (proj2 rejected_request_propagates_rejected_write_is_caught
             Clipboard.modern_only "x"%string
             (Clipboard.answer (Some Clipboard.granted) Rejected)
             (Clipboard.useClipboard 0)); reflexivity.
Defined.

(** C4 as stated fails: when the platform rejects the request, the
    promise returned by [enter] is rejected, not resolved. *)
Lemma enter_rejects_when_request_rejects :
  let P := Fullscreen.page Rejected None in
  Fullscreen.isSupported P = true ∧
  Fullscreen.enter P Fullscreen.useFullscreen =
    (Rejected,
     {| Fullscreen.isFullscreen := false;
        Fullscreen.calls := [Fullscreen.TargetCall "requestFullscreen"] |}) ∧
  fst (Fullscreen.enter P Fullscreen.useFullscreen) ≠ Resolved.
Proof. by vm_compute. Qed.

End RejectionFacts.

(** ** useCssVar *)
Section CssVarFacts.
Import CssVar.

Lemma truthy_value (p : string) : truthy (value p) = true ↔ p ≠ EmptyString.
Proof.
  simpl. destruct (String.eqb_spec p EmptyString); simpl; split; congruence.
Qed.

Lemma write_watch_mirrors s : mirrors (write_watch s).
Proof.
  unfold mirrors, write_watch.
  destruct (el s) as [[st|]|] eqn:He, (prop s) as [| |p] eqn:Hp; simpl;
    rewrite ?He, ?Hp; try done.
  destruct (String.eqb_spec p EmptyString) as [->|Hne]; simpl; rewrite ?He, ?Hp;
    [done |].
  intros _. unfold declared, removeProperty, setProperty.
  destruct (variable s) as [| |str]; try apply lookup_delete_eq.
  destruct (String.eqb str EmptyString);
    [apply lookup_delete_eq | apply lookup_insert_eq].
Qed.

Lemma assign_mirrors v s : mirrors s → mirrors (assign v s).
Proof.
  unfold assign. case_bool_decide; [done |]. intros _. apply write_watch_mirrors.
Qed.

(** Between foreign style edits the element's property always mirrors
    the bound value. *)
Lemma run_mirrors o es : ∀ s,
  forallb own_event es = true → mirrors s → mirrors (run o s es).
Proof.
  induction es as [|e es IH]; intros s Hes Hs; [done |].
  simpl in Hes. apply andb_prop in Hes as [He Hes].
  apply IH; [done |].
  destruct e as [v|r|st]; simpl; [by apply assign_mirrors | | done].
  destruct (observe o); [| done]. unfold updateCssVar.
  destruct (_ && _); [by apply assign_mirrors | done].
Qed.

Lemma useCssVar_mirrors o p e r : mirrors (useCssVar o p e r).
Proof. apply write_watch_mirrors. Qed.

(** C8 (as amended).  On a binding whose target element has a style
    and whose property name is non-empty: a write of the value already
    held runs no watcher and leaves the binding and the element as they
    are.  A write that changes the value, or any write while the
    element's property still mirrors the value held, removes the
    property from the element when the value is null (or undefined), and
    otherwise makes the property read back as exactly the written
    string; the other properties of the element are left alone. *)
Theorem setting_variable_writes_property o s st p v :
  el s = Some (Some st) → prop s = value p → p ≠ EmptyString →
  let s' := dispatch o s (SetVariable v) in
  (v = variable s → s' = s) ∧
  (v ≠ variable s ∨ mirrors s →
   variable s' = v ∧
   match v with
   | value str =>
       getPropertyValue p (style_of s') = str ∧
       (str ≠ EmptyString → style_of s' !! p = Some str)
   | _ => style_of s' !! p = None
   end ∧
   (∀ k, k ≠ p → style_of s' !! k = st !! k)).
Proof.
  intros Hel Hp Hne s'. subst s'. simpl. unfold assign. split.
  { intros Heq. by rewrite bool_decide_eq_true_2. }
  intros Hv. case_bool_decide as Heq.
  - destruct Hv as [Hv|Hm]; [done |].
    unfold mirrors in Hm. rewrite Hel, Hp in Hm. specialize (Hm Hne).
    unfold style_of, getPropertyValue. rewrite Hel, Hm, <- Heq.
    split; [done |]. split; [| done].
    destruct v as [| |str]; simpl; try done.
    destruct (String.eqb_spec str EmptyString) as [->|Hs]; simpl; done.
  - unfold write_watch. simpl. rewrite Hel, Hp.
    rewrite (proj2 (truthy_value p) Hne). unfold style_of. simpl.
    split; [done |]. split.
    + destruct v as [| |str]; unfold removeProperty, setProperty, getPropertyValue.
      * apply lookup_delete_eq.
      * apply lookup_delete_eq.
      * destruct (String.eqb_spec str EmptyString) as [->|Hs].
        -- rewrite lookup_delete_eq. done.
        -- rewrite lookup_insert_eq. done.
    + intros k Hk.
      destruct v as [| |str]; unfold removeProperty, setProperty.
      * by apply lookup_delete_ne.
      * by apply lookup_delete_ne.
      * destruct (String.eqb str EmptyString);
          [by apply lookup_delete_ne | by apply lookup_insert_ne].
Qed.

Lemma setting_variable_writes_property_witness :
  (let s' := dispatch defaults themed (SetVariable null) in
   variable s' = null ∧ style_of s' !! "--color"%string = None ∧
   (∀ k, k ≠ "--color"%string →
         style_of s' !! k =
         ({[ "--color"%string := "red"%string ]} : Style) !! k)) ∧
  (let s' := dispatch defaults themed (SetVariable (value "teal"%string)) in
   variable s' = value "teal"%string ∧
   (getPropertyValue "--color" (style_of s') = "teal"%string ∧
    ("teal"%string ≠ EmptyString →
     style_of s' !! "--color"%string = Some "teal"%string)) ∧
   (∀ k, k ≠ "--color"%string →
         style_of s' !! k =
         ({[ "--color"%string := "red"%string ]} : Style) !! k)) ∧
  dispatch defaults themed (SetVariable (value "red"%string)) = themed.
Proof.
  split; [| split].
  - apply (setting_variable_writes_property defaults themed
             {[ "--color"%string := "red"%string ]} "--color"%string null);
      [reflexivity | reflexivity | discriminate | left; discriminate].
  - apply (setting_variable_writes_property defaults themed
             {[ "--color"%string := "red"%string ]} "--color"%string
             (value "teal"%string));
      [reflexivity | reflexivity | discriminate | left; discriminate].
  - apply (setting_variable_writes_property defaults themed
             {[ "--color"%string := "red"%string ]} "--color"%string
             (value "red"%string));
      [reflexivity | reflexivity | discriminate | reflexivity].
Defined.

(** C8 as stated fails.  After the binding itself was renamed to a
    property that reads empty, the value held is still ["red"] and the
    new property is not declared; writing ["red"] again changes nothing,
    so the property is not set to the written string.  And once the
    value held is null, a property that someone declared since is not
    removed by writing null again. *)
Lemma held_value_is_not_written_again :
  let s0 := useCssVar defaults (value "--color"%string) (Some (Some ∅))
                      "red"%string in
  let s1 := rename defaults (value "--accent"%string) EmptyString s0 in
  let s2 := dispatch defaults s1 (SetVariable (value "red"%string)) in
  let t1 := run defaults s0
                [SetVariable null; Restyle {[ "--color"%string := "blue"%string ]}] in
  let t2 := dispatch defaults t1 (SetVariable null) in
  (prop s1 = value "--accent"%string ∧ variable s1 = value "red"%string ∧
   variable s2 = value "red"%string ∧
   style_of s2 !! "--accent"%string = None ∧
   getPropertyValue "--accent" (style_of s2) ≠ "red"%string) ∧
  (prop t1 = value "--color"%string ∧ variable t1 = null ∧
   variable t2 = null ∧
   style_of t2 !! "--color"%string = Some "blue"%string).
Proof. by vm_compute. Qed.

(** Evaluated: null removes the declaration, a string replaces it. *)
Example setting_variable_trace :
  style_of (dispatch defaults themed (SetVariable null)) = ∅ ∧
  style_of (dispatch defaults themed (SetVariable (value "teal"%string)))
    = {[ "--color"%string := "teal"%string ]}.
Proof. by vm_compute. Qed.

End CssVarFacts.

Section CssVarReadFacts.
Import CssVar.

Lemma write_watch_frame s :
  prop (write_watch s) = prop s ∧ variable (write_watch s) = variable s ∧
  (is_Some (el s) → is_Some (el (write_watch s))).
Proof.
  unfold write_watch.
  repeat case_match; simpl; split_and!; eauto.
  by intros [? ?].
Qed.

Lemma updateCssVar_variable o r s :
  can_read o s →
  variable (updateCssVar o r s) =
    js_or (js_or (value (trim r)) (variable s)) (initialValue o).
Proof.
  intros (He & Hw & Hp). unfold updateCssVar.
  rewrite bool_decide_eq_true_2, Hw, Hp by done. simpl.
  unfold assign. case_bool_decide as Hv; [done |].
  by destruct (write_watch_frame
                 {| prop := prop s; el := el s;
                    variable := js_or (js_or (value (trim r)) (variable s))
                                      (initialValue o) |}) as (_ & -> & _).
Qed.

Lemma updateCssVar_can_read o r s : can_read o s → can_read o (updateCssVar o r s).
Proof.
  intros (He & Hw & Hp). unfold updateCssVar.
  rewrite bool_decide_eq_true_2, Hw, Hp by done. simpl.
  unfold assign. case_bool_decide; [done |].
  match goal with |- can_read o (write_watch ?x) =>
    destruct (write_watch_frame x) as (Hp' & _ & He') end.
  unfold can_read. rewrite Hp'. simpl. auto.
Qed.

Lemma last_nonempty_snoc acc r :
  last_nonempty (acc ++ [r]) =
    if String.eqb (trim r) EmptyString then last_nonempty acc else Some (trim r).
Proof.
  unfold last_nonempty. rewrite map_app, List.filter_app. simpl.
  destruct (String.eqb (trim r) EmptyString); simpl.
  - by rewrite app_nil_r.
  - apply last_snoc.
Qed.

Lemma last_nonempty_truthy acc x :
  last_nonempty acc = Some x → truthy (value x) = true.
Proof.
  unfold last_nonempty. intros H%last_Some_elem_of.
  apply list_elem_of_In, filter_In in H as [_ H]. done.
Qed.

Lemma js_or_idem a : js_or a a = a.
Proof. unfold js_or. by destruct (truthy a). Qed.

Lemma js_or_reading t a b :
  js_or (js_or (value t) a) b =
    if String.eqb t EmptyString then js_or a b else value t.
Proof.
  unfold js_or. simpl.
  destruct (String.eqb t EmptyString) eqn:E; simpl; [done | by rewrite E].
Qed.

Lemma updateCssVar_holds o r s acc :
  can_read o s → variable s = holds o acc →
  variable (updateCssVar o r s) = holds o (acc ++ [r]).
Proof.
  intros Hc Hv. rewrite updateCssVar_variable by done.
  unfold holds in *. rewrite last_nonempty_snoc, js_or_reading.
  destruct (String.eqb (trim r) EmptyString) eqn:Hr; simpl; [| done].
  rewrite Hv. destruct (last_nonempty acc) as [x|] eqn:Hx.
  - unfold js_or. by rewrite (last_nonempty_truthy acc x Hx).
  - apply js_or_idem.
Qed.

Lemma readings_holds o rs : ∀ s acc,
  can_read o s → variable s = holds o acc →
  variable (readings o s rs) = holds o (acc ++ rs).
Proof.
  induction rs as [|r rs IH]; intros s acc Hc Hv.
  - by rewrite app_nil_r.
  - change (readings o s (r :: rs)) with (readings o (updateCssVar o r s) rs).
    replace (acc ++ r :: rs) with ((acc ++ [r]) ++ rs) by (by rewrite <- app_assoc).
    apply IH; [by apply updateCssVar_can_read | by apply updateCssVar_holds].
Qed.

Lemma useCssVar_holds o p e r0 :
  can_read o (useCssVar o p e r0) →
  variable (useCssVar o p e r0) = holds o [r0].
Proof.
  unfold useCssVar.
  match goal with |- can_read o (write_watch ?x) → _ =>
    destruct (write_watch_frame x) as (Hp' & Hv' & _) end.
  intros (He & Hw & Hp). rewrite Hp' in Hp. simpl in Hp.
  rewrite Hv'. simpl.
  assert (Hel : is_Some e).
  { unfold write_watch in He. simpl in He.
    destruct e as [[st|]|]; [done | done |]. destruct p; by inversion He. }
  rewrite bool_decide_eq_true_2, Hw, Hp by done. simpl.
  change [r0] with ([] ++ [r0]). unfold holds.
  rewrite last_nonempty_snoc, js_or_reading.
  destruct (String.eqb (trim r0) EmptyString); simpl; [| done].
  apply js_or_idem.
Qed.

(** C9.  Whenever [updateCssVar] reads, a reading that is empty after
    trimming leaves a non-empty bound value as it is and replaces any
    other bound value by the configured [initialValue]; a non-empty
    reading is stored trimmed.  So the empty string is never stored on
    account of a reading (it can only be the configured [initialValue]
    itself), and along any run of readings from set-up the bound value
    is the last non-empty reading, or [initialValue] if there was
    none. *)
Theorem updateCssVar_keeps_value_on_empty_reading o s r p e r0 rs :
  can_read o s → can_read o (useCssVar o p e r0) →
  let s' := updateCssVar o r s in
  (trim r = EmptyString →
     variable s' = if truthy (variable s) then variable s else initialValue o) ∧
  (trim r ≠ EmptyString → variable s' = value (trim r)) ∧
  (variable s' = value EmptyString → initialValue o = value EmptyString) ∧
  variable (readings o (useCssVar o p e r0) rs) = holds o (r0 :: rs).
Proof.
  intros Hc Hc0 s'. subst s'.
  rewrite updateCssVar_variable, js_or_reading by done.
  repeat split.
  - intros ->. reflexivity.
  - intros Hr. by destruct (String.eqb_spec (trim r) EmptyString).
  - destruct (String.eqb_spec (trim r) EmptyString) as [Hr|Hr].
    + unfold js_or. destruct (truthy (variable s)) eqn:Ht; [| done].
      intros Hv. rewrite Hv in Ht. discriminate Ht.
    + intros [= Hv]. done.
  - apply (readings_holds o rs _ [r0]); [done | by apply useCssVar_holds].
Qed.

Lemma updateCssVar_keeps_value_on_empty_reading_witness :
  let o := defaults in
  let s0 := useCssVar o (value "--color"%string) (Some (Some ∅)) "  "%string in
  let s' := updateCssVar o " "%string themed in
  (trim " " = EmptyString →
     variable s' = if truthy (variable themed) then variable themed
                   else initialValue o) ∧
  (trim " " ≠ EmptyString → variable s' = value (trim " ")) ∧
  (variable s' = value EmptyString → initialValue o = value EmptyString) ∧
  variable (readings o s0 [" green "; " "]%string)
    = holds o ["  "; " green "; " "]%string.
Proof.
  apply (updateCssVar_keeps_value_on_empty_reading defaults themed " "%string
           (value "--color"%string) (Some (Some ∅)) "  "%string
           [" green "; " "]%string).
  - split; [by eexists | split; reflexivity].
  - split; [by eexists | split; reflexivity].
Defined.

(** The same run, evaluated: the blank readings change nothing, the
    middle one is stored trimmed. *)
Example updateCssVar_trace :
  let s0 := useCssVar defaults (value "--color"%string) (Some (Some ∅))
                      "  "%string in
  variable s0 = value "blue"%string ∧
  variable (readings defaults s0 [" green "; " "]%string) = value "green"%string ∧
  variable (updateCssVar defaults " "%string themed) = value "red"%string.
Proof. by vm_compute. Qed.

End CssVarReadFacts.

(** ** useFullscreen: the controller as a state machine *)
Section FullscreenMachine.
Import Fullscreen.

Lemma isSupported_parts P :
  isSupported P = true →
  ∃ e d mr mx fe,
    targetRef P = Some e ∧ document P = Some d ∧ requestMethod P = Some mr ∧
    exitMethod P = Some mx ∧ fullscreenEnabled P = Some fe.
Proof.
  unfold isSupported, useSupported. intros H.
  repeat (apply andb_prop in H as [H ?]).
  repeat match goal with
         | H : bool_decide (is_Some _) = true |- _ =>
             apply bool_decide_eq_true_1 in H as [? ?]
         end.
  eauto 10.
Qed.

Lemma exit_flag_follows_outcome P s :
  isSupported P = true → isFullscreen s = true →
  (fst (exit P s) = Resolved ∧ isFullscreen (snd (exit P s)) = false) ∨
  (fst (exit P s) = Rejected ∧ isFullscreen (snd (exit P s)) = true).
Proof.
  intros Hsup Hf.
  destruct (isSupported_parts P Hsup) as (e & d & mr & mx & fe & He & Hd & _ & Hx & _).
  unfold exit. rewrite Hsup, Hf, Hx, Hd, He. simpl.
  unfold andThen, invoke, set_isFullscreen, done_.
  repeat case_match; simplify_eq/=; auto.
Qed.

(** X1.  [enter] reaches the platform at most once, with the resolved request
    method and on the target only, and it raises the flag only after
    that request resolved. *)
Theorem enter_only_requests_on_target P s :
  ∃ extra,
    calls (snd (enter P s)) = calls s ++ extra ∧
    (extra = [] ∨
     ∃ m e, requestMethod P = Some m ∧ targetRef P = Some e ∧
            non_null (get (el_props e) m) = true ∧ extra = [TargetCall m]) ∧
    (isFullscreen (snd (enter P s)) = true →
     isFullscreen s = true ∨ (fst (enter P s) = Resolved ∧ extra ≠ [])).
Proof.
  unfold enter.
  destruct (negb (isSupported P) || isFullscreen s) eqn:Hg.
  { exists []. rewrite app_nil_r. simpl. split; [done |]. split; [by left |].
    intros H. by left. }
  apply orb_false_elim in Hg as [_ Hf]. unfold andThen.
  assert (He : (if isElementFullScreen P then exit P else done_) s = (Resolved, s)).
  { destruct (isElementFullScreen P); [by apply exit_when_not_fullscreen | done]. }
  rewrite He.
  destruct (requestMethod P) as [m|] eqn:Hm;
    [| exists []; rewrite app_nil_r; simpl; rewrite Hf; by auto].
  destruct (targetRef P) as [e|] eqn:Ht;
    [| exists []; rewrite app_nil_r; simpl; rewrite Hf; by auto].
  destruct (non_null (get (el_props e) m)) eqn:Hn;
    [| exists []; rewrite app_nil_r; simpl; rewrite Hf; by auto].
  unfold invoke, set_isFullscreen.
  destruct (get (el_props e) m) as [| |b|i|[]] eqn:Hv; simpl in *.
  - done.
  - done.
  - exists []. rewrite app_nil_r, Hf. by auto.
  - exists []. rewrite app_nil_r, Hf. by auto.
  - exists [TargetCall m]. split; [done |]. split; [right; exists m, e; by rewrite Hv |].
    intros _. right. by split.
  - exists [TargetCall m]. split; [done |]. split; [right; exists m, e; by rewrite Hv |].
    by rewrite Hf.
Qed.

(** X2.  On a supported controller whose flag is up, [exit] reaches the
    platform at most once, with the resolved exit method, on the document
    when the document has it and on the target only otherwise.  The flag
    is lowered exactly when [exit] resolves. *)
Theorem exit_prefers_document_and_lowers_flag P s :
  isSupported P = true → isFullscreen s = true →
  ∃ m d extra,
    exitMethod P = Some m ∧ document P = Some d ∧
    calls (snd (exit P s)) = calls s ++ extra ∧
    (extra = [] ∨ extra = [DocumentCall m] ∨
     (extra = [TargetCall m] ∧ non_null (get (doc_props d) m) = false)) ∧
    isFullscreen (snd (exit P s)) =
      (if decide (fst (exit P s) = Resolved) then false else true).
Proof.
  intros Hsup Hf.
  destruct (isSupported_parts P Hsup) as (e & d & mr & mx & fe & He & Hd & _ & Hx & _).
  exists mx, d. unfold exit. rewrite Hsup, Hf, Hx, Hd, He. simpl.
  unfold andThen, invoke, set_isFullscreen, done_.
  destruct (non_null (get (doc_props d) mx)) eqn:Hn.
  - destruct (get (doc_props d) mx) as [| |b|i|[]]; simpl in *; try done.
    + exists []. rewrite app_nil_r. split_and!; auto 10.
    + exists []. rewrite app_nil_r. split_and!; auto 10.
    + exists [DocumentCall mx]. split_and!; auto 10.
    + exists [DocumentCall mx]. split_and!; auto 10.
  - destruct (non_null (get (el_props e) mx)) eqn:Hn'.
    + destruct (get (el_props e) mx) as [| |b|i|[]]; simpl in *; try done.
      * exists []. rewrite app_nil_r. split_and!; auto 10.
      * exists []. rewrite app_nil_r. split_and!; auto 10.
      * exists [TargetCall mx]. split_and!; auto 10.
      * exists [TargetCall mx]. split_and!; auto 10.
    + exists []. rewrite app_nil_r. simpl. split_and!; auto 10.
Qed.

Lemma exit_prefers_document_and_lowers_flag_witness :
  ∃ m d extra,
    exitMethod (page Resolved (Some 1%nat)) = Some m ∧
    document (page Resolved (Some 1%nat)) = Some d ∧
    calls (snd (exit (page Resolved (Some 1%nat))
                     {| isFullscreen := true; calls := [] |}))
      = [] ++ extra ∧
    (extra = [] ∨ extra = [DocumentCall m] ∨
     (extra = [TargetCall m] ∧ non_null (get (doc_props d) m) = false)) ∧
    isFullscreen (snd (exit (page Resolved (Some 1%nat))
                            {| isFullscreen := true; calls := [] |})) =
      (if decide (fst (exit (page Resolved (Some 1%nat))
                            {| isFullscreen := true; calls := [] |}) = Resolved)
       then false else true).
Proof.
  apply (exit_prefers_document_and_lowers_flag (page Resolved (Some 1%nat))
           {| isFullscreen := true; calls := [] |}); by vm_compute.
Defined.

(** X3.  Once [enter] has raised the flag, a second [enter] does nothing, on
    whatever platform; and an [exit] that resolves on a supported
    platform brings the controller back to inactive. *)
Theorem enter_twice_is_noop_and_exit_undoes P P' s :
  isFullscreen (snd (enter P s)) = true →
  enter P' (snd (enter P s)) = (Resolved, snd (enter P s)) ∧
  (isSupported P' = true → fst (exit P' (snd (enter P s))) = Resolved →
   isFullscreen (snd (exit P' (snd (enter P s)))) = false).
Proof.
  intros Hf. split.
  - unfold enter at 1. rewrite Hf. by rewrite orb_true_r.
  - intros Hsup Hr.
    destruct (exit_flag_follows_outcome P' _ Hsup Hf) as [[_ H] | [H _]];
      [done | congruence].
Qed.

Lemma enter_twice_is_noop_and_exit_undoes_witness :
  let s1 := snd (enter (page Resolved None) useFullscreen) in
  enter (page Resolved (Some 1%nat)) s1 = (Resolved, s1) ∧
  (isSupported (page Resolved (Some 1%nat)) = true →
   fst (exit (page Resolved (Some 1%nat)) s1) = Resolved →
   isFullscreen (snd (exit (page Resolved (Some 1%nat)) s1)) = false).
Proof.
  apply (enter_twice_is_noop_and_exit_undoes (page Resolved None)
           (page Resolved (Some 1%nat)) useFullscreen).
  by vm_compute.
Defined.

(** X4.  While the platform offers no usable fullscreen API, no sequence of
    [enter], [exit] and [toggle] calls changes the flag or reaches the
    platform. *)
Theorem unsupported_controller_is_inert s cs :
  Forall (λ c, isSupported (fst c) = false) cs → call_ops s cs = s.
Proof.
  induction 1 as [|[P op] cs Hc _ IH]; [done |].
  simpl in Hc. change (call_ops (call_op s (P, op)) cs = s).
  assert (Hs : call_op s (P, op) = s).
  { destruct op; simpl; unfold toggle, enter, exit; rewrite Hc; simpl;
      by repeat case_match. }
  by rewrite Hs.
Qed.

Lemma unsupported_controller_is_inert_witness :
  call_ops {| isFullscreen := true; calls := [] |}
           [(bare_page, Toggle); (bare_page, Enter); (bare_page, Exit)]
  = {| isFullscreen := true; calls := [] |}.
Proof.
  apply (unsupported_controller_is_inert {| isFullscreen := true; calls := [] |}).
  repeat constructor.
Defined.

End FullscreenMachine.

(** ** useClipboard: the read path and the life of the flag *)
Section ClipboardLife.
Import Clipboard.

(** X5.  A [copy] or [cut] event on the page changes nothing but the tracked
    text, and that only on a supported instance created with [read]; the
    text becomes what the modern read returns when the API is there, the
    permission allows it and the read resolves, and otherwise the
    current selection (empty when there is none). *)
Theorem page_copy_updates_text_only o env s :
  let s' := deliver o s (CopyOrCut env) in
  copied s' = copied s ∧ timeout s' = timeout s ∧ queue s' = queue s ∧
  now s' = now s ∧ effects s' = effects s ∧
  text s' =
    if isSupported o && read o then
      match readText env with
      | Some t =>
          if isClipboardApiSupported o && isAllowed (permissionRead env)
          then t else legacyRead env
      | None => legacyRead env
      end
    else text s.
Proof.
  simpl. unfold updateText.
  destruct (isSupported o && read o); [| done].
  destruct (isClipboardApiSupported o && isAllowed (permissionRead env));
    simpl; by destruct (readText env).
Qed.

Lemma updateText_frame o env s :
  copied (updateText o env s) = copied s ∧
  timeout (updateText o env s) = timeout s ∧
  queue (updateText o env s) = queue s ∧
  now (updateText o env s) = now s ∧
  effects (updateText o env s) = effects s.
Proof. unfold updateText. by repeat case_match. Qed.

Lemma deliver_single_slot o s e : single_slot s → single_slot (deliver o s e).
Proof.
  intros Hs. destruct e as [[arg env|d]|env]; simpl.
  - by apply copy_single_slot.
  - by apply clip_elapse_single_slot.
  - destruct (isSupported o && read o); [| done].
    destruct (updateText_frame o env s) as (_ & Ht & Hq & _).
    unfold single_slot. by rewrite Hq, Ht.
Qed.

Lemma deliver_flag_backed o s e :
  single_slot s → flag_backed o s → flag_backed o (deliver o s e).
Proof.
  intros Hs Hb. destruct e as [[arg env|d]|env]; simpl.
  - destruct (resolve arg env) as [| |v] eqn:Hr;
      [ by rewrite copy_guard_fails; [| right; rewrite Hr]
      | by rewrite copy_guard_fails; [| right; rewrite Hr] |].
    destruct (isSupported o) eqn:Hsup; [| by rewrite copy_guard_fails; [| left]].
    assert (Hc : copy o arg env s = copy o (value v) env s).
    { unfold copy. by rewrite Hr. }
    rewrite Hc. destruct (copy_spec o v env s Hsup Hs) as (_ & _ & Hn & _ & Hq).
    intros _. eexists. split; [exact Hq |]. simpl. lia.
  - unfold flag_backed, elapse, Timers.take_due in *.
    destruct (Timers.pending (queue s)) as [|t [|u l]] eqn:Hp; simpl.
    + intros Hc. destruct (Hb Hc) as (t & Ht & _). done.
    + destruct (Timers.t_due t <=? now s + Z.of_N d) eqn:Hd; simpl; [done |].
      intros Hc. destruct (Hb Hc) as (t' & [= <-] & Hle).
      exists t. split; [done | lia].
    + unfold single_slot in Hs. by rewrite Hp in Hs.
  - destruct (isSupported o && read o); [| done].
    destruct (updateText_frame o env s) as (Hc & _ & Hq & Hn & _).
    unfold flag_backed. by rewrite Hc, Hq, Hn.
Qed.

Lemma play_invariants o es : ∀ s,
  single_slot s → flag_backed o s →
  single_slot (play o s es) ∧ flag_backed o (play o s es).
Proof.
  induction es as [|e es IH]; intros s Hs Hb; [done |].
  apply IH; [by apply deliver_single_slot | by apply deliver_flag_backed].
Qed.

Lemma elapse_keeps_flag_down o ws : ∀ s,
  single_slot s → copied s = false → copied (run o s (map Elapse ws)) = false.
Proof.
  induction ws as [|d ws IH]; intros s Hs Hc; [done |].
  change (copied (run o (elapse d s) (map Elapse ws)) = false).
  apply IH; [by apply clip_elapse_single_slot |].
  unfold elapse, Timers.take_due.
  destruct (Timers.pending (queue s)) as [|t l]; simpl; [done |].
  destruct (Timers.t_due t <=? now s + Z.of_N d); simpl; [| done].
  by destruct (Timers.split_due (now s + Z.of_N d) l).
Qed.

(** X6.  The flag cannot stay up: whatever calls, page events and clock
    advances an instance has seen, [copied] is false once [copiedDuring]
    ms have passed without a further call. *)
Theorem copied_always_resets o t0 es ws :
  ws ≠ [] → Z.max 0 (copiedDuring o) ≤ total ws →
  copied (run o (play o (useClipboard t0) es) (map Elapse ws)) = false.
Proof.
  intros Hne Hle.
  destruct (play_invariants o es (useClipboard t0)) as [Hs Hb]; [done | done |].
  destruct (copied (play o (useClipboard t0) es)) eqn:Hc.
  - destruct (Hb Hc) as (t & Hq & Hdue).
    destruct (clip_run_elapse_pending o ws _ t Hq) as [_ H].
    apply H; [done | lia].
  - by apply elapse_keeps_flag_down.
Qed.

Lemma copied_always_resets_witness :
  copied (run modern_only
              (play modern_only (useClipboard 0)
                    [Own (Copy (value "a"%string) (answer (Some granted) Resolved));
                     Own (Elapse 700);
                     Own (Copy (value "b"%string) (answer (Some denied) Resolved))])
              (map Elapse [900%N; 600%N])) = false.
Proof.
  apply (copied_always_resets modern_only 0
           [Own (Copy (value "a"%string) (answer (Some granted) Resolved));
            Own (Elapse 700);
            Own (Copy (value "b"%string) (answer (Some denied) Resolved))]
           [900%N; 600%N]); [discriminate | by vm_compute].
Defined.

(** At no point is more than one reset timer pending. *)
Theorem at_most_one_reset_timer o t0 es :
  (length (Timers.pending (queue (play o (useClipboard t0) es))) ≤ 1)%nat.
Proof.
  destruct (play_invariants o es (useClipboard t0)) as [Hs _]; [done | done |].
  unfold single_slot in Hs.
  destruct (Timers.pending (queue (play o (useClipboard t0) es))) as [|t [|u l]];
    simpl; lia.
Qed.

End ClipboardLife.

(** ** useNetwork: status, time stamps and the supported path *)
Section NetworkStatus.
Import Network.

Lemma dispatch_captured s e : captured (dispatch s e) = captured s.
Proof.
  destruct e as [p|p|p]; simpl.
  - by destruct (has_window s).
  - by destruct (has_window s).
  - destruct (connection s) eqn:Hc; [| done].
    unfold updateNetworkInformation, captured.
    destruct (has_navigator s) eqn:Hn; simpl; rewrite ?Hn, ?Hc; simpl;
      by rewrite ?Hn, ?Hc.
Qed.

Lemma run_captured es : ∀ s, captured (run s es) = captured s.
Proof.
  induction es as [|e es IH]; intros s; [done |].
  change (captured (run (dispatch s e) es) = captured s).
  by rewrite IH, dispatch_captured.
Qed.

Lemma useNetwork_captured w p :
  captured (useNetwork (Some w) p) =
    (true, true,
     match navigator_connection w with KeyAbsent => false | _ => true end,
     match navigator_connection w with KeyObject => true | _ => false end).
Proof.
  unfold useNetwork, updateNetworkInformation, useSupported.
  destruct w as [[]]; simpl; reflexivity.
Qed.

Lemma dispatch_stamped s e :
  has_navigator s = true → stamped s → stamped (dispatch s e).
Proof.
  intros Hn Hs. destruct e as [p|p|p]; simpl.
  - destruct (has_window s); [| done]. by eexists.
  - destruct (has_window s); [| done]. by eexists.
  - destruct (connection s) eqn:Hc; [| done].
    unfold updateNetworkInformation, stamped. rewrite Hn. simpl. rewrite Hc. simpl.
    by destruct (nav_onLine p); eexists.
Qed.

(** X8.  In a browser (a window exists), whatever events arrive, the time
    stamp that goes with the current status is always set: [onlineAt]
    while online, [offlineAt] while offline. *)
Theorem status_is_always_stamped w p es :
  stamped (run (useNetwork (Some w) p) es).
Proof.
  assert (H : ∀ s, has_navigator s = true → stamped s → stamped (run s es)).
  { induction es as [|e es IH]; intros s Hn Hs; [done |].
    apply IH; [| by apply dispatch_stamped].
    pose proof (dispatch_captured s e) as Hc. unfold captured in Hc.
    injection Hc; intros; congruence. }
  apply H.
  - pose proof (useNetwork_captured w p) as Hc. unfold captured in Hc.
    injection Hc; intros; congruence.
  - unfold useNetwork, updateNetworkInformation, stamped, useSupported.
    destruct w as [[]], (nav_onLine p) eqn:E; simpl; rewrite ?E; simpl;
      by eapply mk_is_Some.
Qed.

Lemma status_events_keep_quality c es :
  Forall (λ e, match e with ConnectionChange _ => False | _ => True end) es →
  ∀ s, quality_mirrors c s → quality_mirrors c (run s es).
Proof.
  induction 1 as [|e es He _ IH]; intros s Hm; [done |].
  change (quality_mirrors c (run (dispatch s e) es)).
  apply IH. destruct e as [q|q|q]; simpl; [| | done];
    by destruct (has_window s).
Qed.

(** X9.  With a connection object, set-up and every change event copy all
    six quality fields from the object as it is at that moment, and
    take the status from [navigator.onLine]; later online/offline events
    leave the six fields alone. *)
Theorem supported_quality_mirrors_connection w p es p' es' :
  navigator_connection w = KeyObject →
  Forall (λ e, match e with ConnectionChange _ => False | _ => True end) es' →
  quality_mirrors (conn p) (useNetwork (Some w) p) ∧
  isOnline (useNetwork (Some w) p) = nav_onLine p ∧
  let s := run (dispatch (run (useNetwork (Some w) p) es) (ConnectionChange p')) es' in
  quality_mirrors (conn p') s ∧
  (es' = [] → isOnline s = nav_onLine p').
Proof.
  intros Hw Hes'. split.
  { unfold useNetwork, updateNetworkInformation, useSupported. rewrite Hw. simpl.
    by repeat split. }
  split.
  { unfold useNetwork, updateNetworkInformation, useSupported. by rewrite Hw. }
  set (s0 := run (useNetwork (Some w) p) es).
  assert (Hc0 : connection s0 = true ∧ has_navigator s0 = true).
  { pose proof (run_captured es (useNetwork (Some w) p)) as Hc.
    rewrite useNetwork_captured, Hw in Hc. unfold captured in Hc. fold s0 in Hc.
    injection Hc; intros; split; congruence. }
  destruct Hc0 as [Hc Hn].
  assert (Hm : quality_mirrors (conn p') (dispatch s0 (ConnectionChange p')) ∧
               isOnline (dispatch s0 (ConnectionChange p')) = nav_onLine p').
  { simpl. rewrite Hc. unfold updateNetworkInformation. rewrite Hn. simpl.
    rewrite Hc. by repeat split. }
  destruct Hm as [Hm Ho]. cbv zeta. split; [| by intros ->].
  by apply status_events_keep_quality.
Qed.

Lemma supported_quality_mirrors_connection_witness :
  quality_mirrors fast_wifi
    (useNetwork (Some {| navigator_connection := KeyObject |}) (reading true 0)) ∧
  isOnline (useNetwork (Some {| navigator_connection := KeyObject |})
                       (reading true 0)) = nav_onLine (reading true 0) ∧
  let s := run (dispatch
                  (run (useNetwork (Some {| navigator_connection := KeyObject |})
                                   (reading true 0))
                       [Offline (reading false 5)])
                  (ConnectionChange (reading true 9)))
               [Offline (reading false 12)] in
  quality_mirrors (conn (reading true 9)) s ∧
  ([Offline (reading false 12)] = [] → isOnline s = nav_onLine (reading true 9)).
Proof.
  apply (supported_quality_mirrors_connection
           {| navigator_connection := KeyObject |} (reading true 0)
           [Offline (reading false 5)] (reading true 9) [Offline (reading false 12)]).
  - reflexivity.
  - repeat constructor.
Defined.

(** X10.  A navigator whose [connection] key is present but holds nothing
    reports support, yet its quality cells never leave their initial
    values. *)
Theorem empty_connection_is_supported_but_silent p es :
  let s := run (useNetwork (Some {| navigator_connection := KeyFalsy |}) p) es in
  isSupported s = true ∧ quality_initial s.
Proof.
  cbv zeta. split.
  - pose proof (run_captured es
                  (useNetwork (Some {| navigator_connection := KeyFalsy |}) p)) as Hc.
    rewrite useNetwork_captured in Hc. unfold captured in Hc. injection Hc; intros; congruence.
  - apply run_unsupported.
    unfold useNetwork. apply updateNetworkInformation_unsupported.
    by repeat split.
Qed.

(** X11.  Outside a browser (no window) nothing is ever registered or read:
    the instance stays online with no time stamps, through any events. *)
Theorem no_window_network_is_frozen p es :
  let s := run (useNetwork None p) es in
  s = useNetwork None p ∧
  isOnline s = true ∧ offlineAt s = None ∧ onlineAt s = None ∧
  isSupported s = false.
Proof.
  cbv zeta.
  assert (H : run (useNetwork None p) es = useNetwork None p).
  { induction es as [|e es IH]; [done |].
    change (run (dispatch (useNetwork None p) e) es = useNetwork None p).
    assert (He : dispatch (useNetwork None p) e = useNetwork None p)
      by (by destruct e).
    by rewrite He. }
  rewrite H. by repeat split.
Qed.

End NetworkStatus.

(** ** useActiveElement: what is never tracked *)
Section ActiveElementNever.
Import ActiveElement.

(** X12.  With [deep] on, the tracked element is never an element that hosts
    an open shadow root: after any sequence of events it is a leaf of
    the nesting (or null). *)
Theorem deep_tracking_never_stops_at_a_host o active0 es e :
  window o = true → deep o = true →
  activeElement (run o (useActiveElement o active0) es) = value e →
  shadowRoot e = None.
Proof.
  intros Hw Hdeep Hv.
  rewrite (run_last_reading o es active0) in Hv; [| done | done].
  assert (Hr : Reported o (last_reading active0 es) (value e)).
  { apply getDeepActiveElement_Reported; [by apply window_document | done]. }
  unfold Reported in Hr. rewrite Hdeep in Hr.
  by eapply Deepest_terminal.
Qed.

Lemma deep_tracking_never_stops_at_a_host_witness :
  shadowRoot inner_input = None.
Proof.
  apply (deep_tracking_never_stops_at_a_host
           {| window := true; options_document := false; deep := true |}
           (Some plain_button) [Focus (Some host_with_input)] inner_input);
    reflexivity.
Defined.

(** X13.  Without a window no listener exists: events change nothing, and the
    tracked value stays what set-up computed, which is [undefined] when
    no document was passed either. *)
Theorem no_window_tracking_is_frozen o active0 es :
  window o = false →
  run o (useActiveElement o active0) es = useActiveElement o active0 ∧
  (options_document o = false →
   activeElement (run o (useActiveElement o active0) es) = undefined).
Proof.
  intros Hw.
  assert (H : ∀ s, run o s es = s).
  { induction es as [|ev es IH]; intros s; [done |].
    change (run o (dispatch o s ev) es = s).
    unfold dispatch at 1. rewrite Hw. apply IH. }
  rewrite H. split; [done |].
  intros Hd. unfold useActiveElement, trigger, getDeepActiveElement, document.
  simpl. by rewrite Hd, Hw.
Qed.

Lemma no_window_tracking_is_frozen_witness :
  let o := {| window := false; options_document := false; deep := true |} in
  run o (useActiveElement o (Some plain_button)) [Focus (Some host_with_input)]
    = useActiveElement o (Some plain_button) ∧
  (options_document o = false →
   activeElement
     (run o (useActiveElement o (Some plain_button)) [Focus (Some host_with_input)])
     = undefined).
Proof.
  apply (no_window_tracking_is_frozen
           {| window := false; options_document := false; deep := true |}
           (Some plain_button) [Focus (Some host_with_input)]).
  reflexivity.
Defined.

End ActiveElementNever.

(** ** useElementHover: settling *)
Section ElementHoverSettles.
Import ElementHover.

(** X14.  Whatever the delays and events, the platform never holds more than
    one timer of an instance, and it is the one whose handle the
    instance remembers. *)
Theorem hover_never_stacks_timers o t0 es :
  let s := run o (useElementHover t0) es in
  (length (Timers.pending (queue s)) ≤ 1)%nat ∧
  ∀ t, t ∈ Timers.pending (queue s) → timer s = Some (Timers.t_handle t).
Proof.
  cbv zeta.
  assert (Hs : single_slot (run o (useElementHover t0) es))
    by (by apply run_single_slot).
  unfold single_slot in Hs.
  destruct (Timers.pending (queue (run o (useElementHover t0) es)))
    as [|t [|u l]]; simpl.
  - split; [lia |]. intros t Ht. by apply elem_of_nil in Ht.
  - split; [lia |]. intros t' Ht'. apply list_elem_of_singleton in Ht'. by subst.
  - done.
Qed.

Lemma toggle_heading_to o entering s :
  single_slot s → heading_to o entering (toggle o entering s).
Proof.
  intros Hs. destruct (toggle_spec o entering s Hs) as [Hn H].
  unfold heading_to.
  destruct (delay_of o entering =? 0).
  - destruct H as [Hh ->]. done.
  - destruct H as (_ & _ & ->). simpl. split; [done |].
    rewrite Hn. unfold max_delay, delay_of. destruct entering; lia.
Qed.

Lemma elapse_heading_to o d s dir :
  heading_to o dir s → heading_to o dir (elapse d s).
Proof.
  unfold heading_to, elapse, Timers.take_due.
  destruct (Timers.pending (queue s)) as [|t [|u l]]; simpl; try done.
  intros [Hcb Hdue].
  destruct (Timers.t_due t <=? now s + Z.of_N d); simpl; [done |].
  split; [done | lia].
Qed.

Lemma run_heading_to o es : ∀ s dir,
  window o = true → single_slot s → heading_to o dir s →
  heading_to o (last_direction o dir es) (run o s es).
Proof.
  induction es as [|e es IH]; intros s dir Hw Hs Hh; [done |].
  change (run o s (e :: es)) with (run o (dispatch o s e) es).
  pose proof (dispatch_single_slot o s e Hs) as Hs'.
  destruct e as [| | |d]; simpl last_direction; apply IH; try done;
    simpl; rewrite ?Hw; simpl.
  - by apply toggle_heading_to.
  - by apply toggle_heading_to.
  - destruct (triggerOnRemoval o); [by apply toggle_heading_to | done].
  - by apply elapse_heading_to.
Qed.

(** X15.  Eventual consistency: after any sequence of events, once the longer
    of the two delays has passed without a further event, the hover
    state is the direction of the last pointer event (false if there was
    none). *)
Theorem hover_settles_on_last_direction o t0 es ws :
  window o = true → ws ≠ [] → max_delay o ≤ total ws →
  isHovered (run o (run o (useElementHover t0) es) (map Elapse ws))
    = last_direction o false es.
Proof.
  intros Hw Hne Hle.
  pose proof (run_heading_to o es (useElementHover t0) false Hw) as Hh.
  specialize (Hh I eq_refl). unfold heading_to in Hh.
  set (s := run o (useElementHover t0) es) in *.
  destruct (Timers.pending (queue s)) as [|t [|u l]] eqn:Hq; [| | done].
  - by rewrite run_elapse_idle.
  - destruct Hh as [Hcb Hdue].
    destruct (run_elapse_pending o ws s t Hq) as [_ H].
    rewrite H; [done | done | lia].
Qed.

Lemma hover_settles_on_last_direction_witness :
  let o := {| delayEnter := 100; delayLeave := 300;
              triggerOnRemoval := true; window := true |} in
  isHovered
    (run o (run o (useElementHover 0)
                [MouseEnter; Elapse 150; MouseLeave; Elapse 20; MouseEnter;
                 ElementRemoved])
         (map Elapse [100%N; 200%N]))
  = last_direction o false
      [MouseEnter; Elapse 150; MouseLeave; Elapse 20; MouseEnter; ElementRemoved].
Proof.
  apply (hover_settles_on_last_direction
           {| delayEnter := 100; delayLeave := 300;
              triggerOnRemoval := true; window := true |} 0
           [MouseEnter; Elapse 150; MouseLeave; Elapse 20; MouseEnter; ElementRemoved]
           [100%N; 200%N]); [reflexivity | discriminate | by vm_compute].
Defined.

(** X16.  With both delays 0 (the default) nothing is ever scheduled, and the
    hover state is at every moment the direction of the last pointer
    event. *)
Theorem hover_without_delays_is_immediate o t0 es :
  window o = true → delayEnter o = 0 → delayLeave o = 0 →
  let s := run o (useElementHover t0) es in
  isHovered s = last_direction o false es ∧ Timers.pending (queue s) = [].
Proof.
  intros Hw He Hl. cbv zeta.
  assert (H : ∀ s dir,
    single_slot s → isHovered s = dir → Timers.pending (queue s) = [] →
    isHovered (run o s es) = last_direction o dir es ∧
    Timers.pending (queue (run o s es)) = []).
  { induction es as [|e es IH]; intros s dir Hs Hd Hq; [done |].
    change (run o s (e :: es)) with (run o (dispatch o s e) es).
    pose proof (dispatch_single_slot o s e Hs) as Hs'.
    assert (Ht : ∀ b, isHovered (toggle o b s) = b ∧
                      Timers.pending (queue (toggle o b s)) = []).
    { intros b. destruct (toggle_spec o b s Hs) as [_ H].
      assert (Hz : delay_of o b = 0) by (unfold delay_of; by destruct b).
      by rewrite Hz in H. }
    destruct e as [| | |d]; simpl last_direction; apply IH; try done;
      simpl; rewrite ?Hw; simpl; try apply Ht.
    - destruct (triggerOnRemoval o); [apply Ht | done].
    - destruct (triggerOnRemoval o); [apply Ht | done].
    - unfold elapse, Timers.take_due. by rewrite Hq.
    - unfold elapse, Timers.take_due. by rewrite Hq. }
  by apply H.
Qed.

Lemma hover_without_delays_is_immediate_witness :
  let o := {| delayEnter := 0; delayLeave := 0;
              triggerOnRemoval := false; window := true |} in
  let s := run o (useElementHover 0)
               [MouseEnter; ElementRemoved; Elapse 3; MouseLeave; MouseEnter] in
  isHovered s
    = last_direction o false
        [MouseEnter; ElementRemoved; Elapse 3; MouseLeave; MouseEnter] ∧
  Timers.pending (queue s) = [].
Proof.
  apply (hover_without_delays_is_immediate
           {| delayEnter := 0; delayLeave := 0;
              triggerOnRemoval := false; window := true |} 0
           [MouseEnter; ElementRemoved; Elapse 3; MouseLeave; MouseEnter]);
    reflexivity.
Defined.

(** X17.  Without a window the composable returns before it registers any
    listener: the state stays false and no timer is ever set. *)
Theorem hover_without_window_stays_false o t0 es :
  window o = false →
  let s := run o (useElementHover t0) es in
  isHovered s = false ∧ timer s = None ∧ Timers.pending (queue s) = [].
Proof.
  intros Hw. cbv zeta.
  assert (H : ∀ s,
    isHovered s = false → timer s = None → Timers.pending (queue s) = [] →
    isHovered (run o s es) = false ∧ timer (run o s es) = None ∧
    Timers.pending (queue (run o s es)) = []).
  { induction es as [|e es IH]; intros s Hh Ht Hq; [done |].
    change (run o s (e :: es)) with (run o (dispatch o s e) es).
    destruct e as [| | |d]; simpl; rewrite ?Hw; simpl; try by apply IH.
    apply IH; unfold elapse, Timers.take_due; by rewrite Hq. }
  by apply H.
Qed.

Lemma hover_without_window_stays_false_witness :
  let o := {| delayEnter := 50; delayLeave := 0;
              triggerOnRemoval := true; window := false |} in
  let s := run o (useElementHover 0) [MouseEnter; Elapse 60; ElementRemoved] in
  isHovered s = false ∧ timer s = None ∧ Timers.pending (queue s) = [].
Proof.
  apply (hover_without_window_stays_false
           {| delayEnter := 50; delayLeave := 0;
              triggerOnRemoval := true; window := false |} 0
           [MouseEnter; Elapse 60; ElementRemoved]).
  reflexivity.
Defined.

End ElementHoverSettles.

(** ** useCssVar: both directions together *)
Section CssVarSync.
Import CssVar.

(** X18.  From set-up on, as long as the binding keeps its property name
    and nobody else edits the element's inline style, the element's
    property mirrors the bound value after every write and every
    observed mutation: it is declared with exactly the bound string, and
    not declared when the value is null, undefined or empty. *)
Theorem property_mirrors_value_between_foreign_edits o p e r es :
  forallb own_event es = true →
  mirrors (run o (useCssVar o p e r) es).
Proof.
  intros Hes. apply run_mirrors; [done | apply useCssVar_mirrors].
Qed.

Lemma property_mirrors_value_between_foreign_edits_witness :
  mirrors (run defaults
               (useCssVar defaults (value "--color"%string) (Some (Some ∅))
                          " "%string)
               [SetVariable (value "teal"%string); Mutation "teal"%string;
                SetVariable null]).
Proof.
  apply (property_mirrors_value_between_foreign_edits defaults
           (value "--color"%string) (Some (Some ∅)) " "%string
           [SetVariable (value "teal"%string); Mutation "teal"%string;
            SetVariable null]).
  reflexivity.
Defined.

(** A rename is what ends the mirroring: the new property reads empty,
    the value held does not change, so nothing is written under the new
    name. *)
Example rename_can_end_mirroring :
  let s0 := useCssVar defaults (value "--color"%string) (Some (Some ∅))
                      "red"%string in
  let s1 := rename defaults (value "--accent"%string) EmptyString s0 in
  variable s1 = value "red"%string ∧ style_of s1 = ∅ ∧
  declared (variable s1) = Some "red"%string.
Proof. by vm_compute. Qed.

Lemma assign_same v s : v = variable s → assign v s = s.
Proof. intros H. unfold assign. by rewrite bool_decide_eq_true_2. Qed.

Lemma assign_frame v s :
  prop (assign v s) = prop s ∧ variable (assign v s) = v ∧
  (is_Some (el s) ↔ is_Some (el (assign v s))).
Proof.
  unfold assign. case_bool_decide as H; [by subst |].
  unfold write_watch. simpl.
  repeat case_match; simpl; split_and!; try done;
    split; intros [? ?]; by eauto.
Qed.

(** X19.  Reading is idempotent: a second read that finds the same computed
    value changes nothing, so the write it may trigger on the element
    cannot set off a further change of the bound value. *)
Theorem reading_twice_changes_nothing o r s :
  updateCssVar o r (updateCssVar o r s) = updateCssVar o r s.
Proof.
  destruct (bool_decide (is_Some (el s)) && window o && truthy (prop s)) eqn:Hg.
  - set (v := js_or (js_or (value (trim r)) (variable s)) (initialValue o)).
    assert (Hu : updateCssVar o r s = assign v s)
      by (unfold updateCssVar; by rewrite Hg).
    rewrite Hu.
    destruct (assign_frame v s) as (Hp & Hv & He).
    unfold updateCssVar.
    apply andb_prop in Hg as [Hg Ht]. apply andb_prop in Hg as [Hg Hw].
    apply bool_decide_eq_true_1 in Hg.
    rewrite bool_decide_eq_true_2 by (by apply He).
    rewrite Hw, Hp, Ht. simpl. apply assign_same. rewrite Hv.
    unfold v. rewrite !js_or_reading.
    destruct (String.eqb (trim r) EmptyString); [| done].
    unfold js_or. destruct (truthy (variable s)) eqn:Hs; rewrite ?Hs; [done |].
    by destruct (truthy (initialValue o)).
  - assert (Hu : updateCssVar o r s = s)
      by (unfold updateCssVar; by rewrite Hg).
    by rewrite !Hu.
Qed.

(** X20.  Renaming the bound property removes the old property from the
    element's inline style, whatever the new name then reads. *)
Theorem rename_removes_old_property o p' r s st old :
  el s = Some (Some st) → prop s = value old → old ≠ EmptyString →
  p' ≠ value old →
  style_of (rename o p' r s) !! old = None ∧
  prop (rename o p' r s) = p'.
Proof.
  intros Hel Hp Hne Hnew. unfold rename.
  rewrite bool_decide_eq_false_2 by (by rewrite Hp).
  rewrite Hel, Hp, (proj2 (truthy_value old) Hne).
  unfold updateCssVar. simpl.
  destruct (window o && truthy p'); simpl;
    [| split; [apply lookup_delete_eq | done]].
  unfold assign. case_bool_decide; simpl;
    [split; [apply lookup_delete_eq | done] |].
  unfold write_watch. simpl.
  destruct p' as [| |q]; simpl; try (split; [apply lookup_delete_eq | done]).
  destruct (negb (String.eqb q EmptyString)); simpl;
    [| split; [apply lookup_delete_eq | done]].
  split; [| done].
  assert (Hq : q ≠ old) by congruence.
  unfold setProperty, removeProperty.
  repeat case_match; unfold style_of; simpl;
    first [ rewrite (lookup_delete_ne _ q old) by done
          | rewrite (lookup_insert_ne _ q old) by done ];
    apply lookup_delete_eq.
Qed.

Lemma rename_removes_old_property_witness :
  style_of (rename defaults (value "--accent"%string) "green"%string themed)
    !! "--color"%string = None ∧
  prop (rename defaults (value "--accent"%string) "green"%string themed)
    = value "--accent"%string.
Proof.
  apply (rename_removes_old_property defaults (value "--accent"%string)
           "green"%string themed {[ "--color"%string := "red"%string ]});
    [reflexivity | reflexivity | discriminate | discriminate].
Defined.

End CssVarSync.

(** ** useBrowserLocation *)
Section BrowserLocationFacts.
Import BrowserLocation.

Lemma set_ref_location_spec w s key :
  navigations (set_ref w s key (lookup_location w key)) = navigations s ∧
  has_window (set_ref w s key (lookup_location w key)) = has_window s ∧
  cell (set_ref w s key (lookup_location w key)) = cell s ∧
  ∀ k, refs (set_ref w s key (lookup_location w key)) !! k =
       if decide (k = key) then Some (lookup_location w key) else refs s !! k.
Proof.
  unfold set_ref. case_bool_decide as Hsame.
  - split_and!; try done. intros k. case_decide; by subst.
  - assert (Hw : ∀ s', watcher w key (lookup_location w key) s' = s').
    { intros s'. unfold watcher, lookup_location.
      destruct w as [[[loc|] h]|]; try done.
      by rewrite bool_decide_eq_true_2. }
    rewrite Hw. simpl. split_and!; try done.
    intros k. case_decide as Hk.
    + subst. apply lookup_insert_eq.
    + by apply lookup_insert_ne.
Qed.

Lemma rebuild_refs w keys : ∀ s,
  navigations (assign_all w s keys) = navigations s ∧
  has_window (assign_all w s keys) = has_window s ∧
  ∀ k, refs (assign_all w s keys) !! k =
       if decide (k ∈ keys) then Some (lookup_location w k) else refs s !! k.
Proof.
  induction keys as [|key keys IH]; intros s.
  - split_and!; done.
  - change (assign_all w s (key :: keys))
      with (assign_all w (set_ref w s key (lookup_location w key)) keys).
    destruct (IH (set_ref w s key (lookup_location w key))) as (Hn & Hh & Hr).
    destruct (set_ref_location_spec w s key) as (Hn' & Hh' & _ & Hr').
    split_and!; [congruence | congruence |].
    intros k. rewrite Hr, Hr'.
    destruct (decide (k = key)) as [->|Hne].
    + rewrite (decide_True (P := key ∈ key :: keys)) by apply list_elem_of_here.
      by case_decide.
    + destruct (decide (k ∈ keys)) as [Hin|Hnin].
      * by rewrite decide_True by (by apply list_elem_of_further).
      * rewrite decide_False; [done |].
        intros [?|?]%elem_of_cons; done.
Qed.

(** X21.  Rebuilding the state (at set-up, on [popstate], on [hashchange])
    makes every writable field equal to the field of [window.location]
    and tags the state with the event, and it never assigns to
    [window.location]: the refs it updates find the location already
    equal. *)
Theorem rebuild_mirrors_location_without_navigating w trig s key :
  key ∈ WRITABLE_PROPERTIES →
  navigations (buildState w trig s) = navigations s ∧
  refs (buildState w trig s) !! key = Some (lookup_location w key) ∧
  trigger (cell (buildState w trig s)) = trig ∧
  origin (cell (buildState w trig s)) = lookup_location w "origin".
Proof.
  intros Hk.
  destruct (rebuild_refs w WRITABLE_PROPERTIES s) as (Hn & _ & Hr).
  unfold buildState.
  generalize dependent (assign_all w s WRITABLE_PROPERTIES). intros s' Hn Hr.
  cbn [pack navigations refs cell trigger origin].
  split_and!; [exact Hn | | reflexivity | reflexivity].
  rewrite Hr. by rewrite decide_True.
Qed.

Lemma rebuild_mirrors_location_without_navigating_witness :
  navigations (buildState (Some docs_page) "popstate" (useBrowserLocation None))
    = navigations (useBrowserLocation None) ∧
  refs (buildState (Some docs_page) "popstate" (useBrowserLocation None))
    !! "pathname"%string = Some (lookup_location (Some docs_page) "pathname") ∧
  trigger (cell (buildState (Some docs_page) "popstate" (useBrowserLocation None)))
    = "popstate"%string ∧
  origin (cell (buildState (Some docs_page) "popstate" (useBrowserLocation None)))
    = lookup_location (Some docs_page) "origin".
Proof.
  apply (rebuild_mirrors_location_without_navigating (Some docs_page)
           "popstate"%string (useBrowserLocation None) "pathname"%string).
  apply list_elem_of_In. simpl. tauto.
Defined.

Lemma set_ref_spec w s key v :
  refs s !! key = Some (lookup_location (Some w) key) →
  refs (set_ref (Some w) s key v) !! key = Some v ∧
  navigations (set_ref (Some w) s key v) =
    navigations s ++
      match location w with
      | Some loc => if bool_decide (read loc key = v) then [] else [(key, v)]
      | None => []
      end.
Proof.
  intros Hr. unfold set_ref. rewrite Hr.
  case_bool_decide as Hsame.
  - split; [congruence |]. injection Hsame as Hsame.
    unfold lookup_location in Hsame. destruct w as [[loc|] h]; simpl in *.
    + rewrite bool_decide_eq_true_2 by done. by rewrite app_nil_r.
    + by rewrite app_nil_r.
  - unfold watcher. destruct w as [[loc|] h]; simpl.
    + case_bool_decide; simpl; rewrite lookup_insert_eq, ?app_nil_r; done.
    + rewrite lookup_insert_eq, app_nil_r. done.
Qed.

(** X22.  Writing a writable field of a freshly rebuilt state stores the
    value, and assigns it to [window.location] exactly when the location
    holds a different value for that field: an unchanged field causes no
    navigation, a changed one causes exactly one. *)
Theorem write_navigates_only_when_different w trig s key v :
  key ∈ WRITABLE_PROPERTIES →
  let s1 := buildState (Some w) trig s in
  let s2 := set_ref (Some w) s1 key v in
  refs s2 !! key = Some v ∧
  navigations s2 =
    navigations s1 ++
      match location w with
      | Some loc => if bool_decide (read loc key = v) then [] else [(key, v)]
      | None => []
      end.
Proof.
  intros Hk s1 s2. subst s1 s2. apply set_ref_spec.
  destruct (rebuild_refs (Some w) WRITABLE_PROPERTIES s) as (_ & _ & Hr).
  unfold buildState.
  generalize dependent (assign_all (Some w) s WRITABLE_PROPERTIES). intros s' Hr.
  cbn [pack refs]. rewrite Hr. by rewrite decide_True.
Qed.

Lemma write_navigates_only_when_different_witness :
  let s1 := buildState (Some docs_page) "load" (useBrowserLocation None) in
  let s2 := set_ref (Some docs_page) s1 "hash" (value "#api"%string) in
  refs s2 !! "hash"%string = Some (value "#api"%string) ∧
  navigations s2 =
    navigations s1 ++
      match location docs_page with
      | Some loc =>
          if bool_decide (read loc "hash" = value "#api"%string) then []
          else [("hash"%string, value "#api"%string)]
      | None => []
      end.
Proof.
  apply (write_navigates_only_when_different docs_page "load"%string
           (useBrowserLocation None) "hash"%string (value "#api"%string)).
  apply list_elem_of_In. simpl. tauto.
Defined.

(** Evaluated on the sample page: set-up reads the page without
    navigating, a write of the current hash is skipped, a new hash is
    assigned once. *)
Example location_trace :
  navigations (useBrowserLocation (Some docs_page)) = [] ∧
  refs (useBrowserLocation (Some docs_page)) !! "pathname"%string
    = Some (value "/docs"%string) ∧
  navigations (run (useBrowserLocation (Some docs_page))
                   [Write "hash" (value "#intro"%string) docs_page;
                    Write "hash" (value "#api"%string) docs_page;
                    HashChange docs_page])
    = [("hash"%string, value "#api"%string)].
Proof. by vm_compute. Qed.

Lemma dispatch_no_window s e :
  has_window s = false →
  has_window (dispatch s e) = false ∧ navigations (dispatch s e) = navigations s.
Proof.
  intros Hw. destruct e as [w|w|key v w]; simpl; rewrite ?Hw; try done.
  unfold seen, set_ref. rewrite Hw. by case_bool_decide.
Qed.

(** X23.  Without a window nothing is read and nothing is ever assigned: the
    state is tagged ["load"], every field is undefined until written,
    and no sequence of events or writes navigates. *)
Theorem no_window_location_is_inert key es :
  key ∈ WRITABLE_PROPERTIES →
  refs (useBrowserLocation None) !! key = Some undefined ∧
  trigger (cell (useBrowserLocation None)) = "load"%string ∧
  navigations (run (useBrowserLocation None) es) = [].
Proof.
  intros Hk. unfold useBrowserLocation.
  match goal with |- context [buildState None _ ?x] => set (s0 := x) end.
  destruct (rebuild_refs None WRITABLE_PROPERTIES s0) as (Hn & Hh & Hr).
  unfold buildState.
  generalize dependent (assign_all None s0 WRITABLE_PROPERTIES). intros s' Hn Hh Hr.
  cbn [pack refs cell trigger].
  split_and!; [rewrite Hr; by rewrite decide_True | done |].
  assert (H : ∀ s, has_window s = false → navigations (run s es) = navigations s).
  { clear. induction es as [|e es IH]; intros s Hw; [done |].
    change (navigations (run (dispatch s e) es) = navigations s).
    destruct (dispatch_no_window s e Hw) as [Hw' Hn']. by rewrite IH. }
  rewrite H; cbn [pack has_window navigations]; [by rewrite Hn | by rewrite Hh].
Qed.

Lemma no_window_location_is_inert_witness :
  refs (useBrowserLocation None) !! "href"%string = Some undefined ∧
  trigger (cell (useBrowserLocation None)) = "load"%string ∧
  navigations (run (useBrowserLocation None)
                   [Write "href" (value "https://example.com/"%string) docs_page;
                    PopState docs_page]) = [].
Proof.
  apply (no_window_location_is_inert "href"%string
           [Write "href" (value "https://example.com/"%string) docs_page;
            PopState docs_page]).
  apply list_elem_of_In. simpl. tauto.
Defined.

End BrowserLocationFacts.

(** ** useFavicon *)
Section FaviconFacts.
Import Favicon.

Lemma after_last_dot_spec s : ∀ cur,
  if has_dot s
  then ∃ p, s = (p ++ String "."%char (after_last_dot cur s))%string ∧
            has_dot (after_last_dot cur s) = false
  else after_last_dot cur s = cur.
Proof.
  induction s as [|c s IH]; intros cur; simpl; [done |].
  destruct (Ascii.eqb_spec c "."%char) as [->|Hc]; simpl.
  - specialize (IH s). destruct (has_dot s) eqn:Hd.
    + destruct IH as (p & Hp & Hn). exists (String "."%char p).
      split; [| done]. exact (f_equal (String "."%char) Hp).
    + exists EmptyString. rewrite IH. by split.
  - specialize (IH cur). destruct (has_dot s) eqn:Hd; [| done].
    destruct IH as (p & Hp & Hn). exists (String c p).
    split; [| done]. exact (f_equal (String c) Hp).
Qed.

(** X24.  The MIME subtype given to a created link is the text after the last
    dot of the icon path, and the whole path when it has no dot: it
    never contains a dot, and the path ends with it. *)
Theorem extension_is_the_text_after_the_last_dot icon :
  has_dot (extension icon) = false ∧
  (has_dot icon = false → extension icon = icon) ∧
  (has_dot icon = true →
   ∃ p, icon = (p ++ String "."%char (extension icon))%string).
Proof.
  unfold extension. pose proof (after_last_dot_spec icon icon) as H.
  destruct (has_dot icon) eqn:Hd.
  - destruct H as (p & Hp & Hn). split_and!; [done | done | by eauto].
  - rewrite H. split_and!; done.
Qed.

Lemma extension_is_the_text_after_the_last_dot_witness :
  has_dot (extension "/img/logo.v2.svg") = false ∧
  (has_dot "/img/logo.v2.svg" = false →
   extension "/img/logo.v2.svg" = "/img/logo.v2.svg"%string) ∧
  (has_dot "/img/logo.v2.svg" = true →
   ∃ p, "/img/logo.v2.svg"%string
        = (p ++ String "."%char (extension "/img/logo.v2.svg"))%string).
Proof. apply (extension_is_the_text_after_the_last_dot "/img/logo.v2.svg"). Defined.

Variable selects : string → Link → bool.
Variables (baseUrl rel_ : string).

(** The selector looks at the [rel] attribute only. *)
Hypothesis selects_by_rel : ∀ a b, rel a = rel b → selects rel_ a = selects rel_ b.
(** A link created with the configured [rel] is selected by it. *)
Hypothesis selects_own : ∀ h t,
  selects rel_ {| rel := rel_; href := h; type := t |} = true.

Lemma applyIcon_some icon head :
  ∃ head', applyIcon selects baseUrl rel_ icon (Some head) = Some head' ∧
    Forall (λ el, selects rel_ el = true → href el = (baseUrl ++ icon)%string) head' ∧
    existsb (selects rel_) head' = true ∧
    map rel head' = map rel head ++ (if existsb (selects rel_) head then [] else [rel_]) ∧
    map type (take (length head) head') = map type head ∧
    (∀ el, el ∈ head → selects rel_ el = false → el ∈ head').
Proof.
  unfold applyIcon. destruct (existsb (selects rel_) head) eqn:Hex.
  - eexists. split; [done |].
    rewrite app_nil_r, take_ge by (by rewrite length_map).
    split_and!.
    + clear Hex. induction head as [|a head IH]; simpl; constructor; [| done].
      destruct (selects rel_ a) eqn:Ha; [done | congruence].
    + assert (H : ∀ l, existsb (selects rel_) l = true →
        existsb (selects rel_)
          (map (λ el, if selects rel_ el
                      then {| rel := rel el; href := (baseUrl ++ icon)%string;
                              type := type el |}
                      else el) l) = true).
      { induction l as [|a l IH]; simpl; [done |].
        destruct (selects rel_ a) eqn:Ha; simpl.
        - intros _. rewrite (selects_by_rel _ a) by done. by rewrite Ha.
        - rewrite Ha. simpl. done. }
      by apply H.
    + clear Hex. induction head as [|a head IH]; simpl; [done |].
      f_equal; [| done]. by destruct (selects rel_ a).
    + clear Hex. induction head as [|a head IH]; simpl; [done |].
      f_equal; [| done]. by destruct (selects rel_ a).
    + intros el Hel Hs. apply list_elem_of_fmap. exists el. by rewrite Hs.
  - eexists. split; [done |]. split_and!.
    + apply Forall_app. split; [| by repeat constructor].
      apply Forall_forall. intros el Hel Hs.
      assert (existsb (selects rel_) head = true); [| congruence].
      apply existsb_exists. exists el. split; [by apply list_elem_of_In | done].
    + rewrite existsb_app. simpl. rewrite selects_own. by rewrite orb_true_r.
    + by rewrite map_app.
    + by rewrite take_app_length.
    + intros el Hel _. apply elem_of_app. by left.
Qed.

(** X25.  Setting a new icon string leaves at least one selected link, points
    every selected link at [baseUrl] followed by the icon, and touches
    nothing else: the links keep their order, their [rel] and the [type]
    they had; links the selector does not select stay as they are; one
    link is appended exactly when none was selected before. *)
Theorem new_icon_reaches_every_selected_link s icon head :
  document s = Some head → value icon ≠ favicon s →
  ∃ head',
    document (set_favicon selects baseUrl rel_ s (value icon)) = Some head' ∧
    favicon (set_favicon selects baseUrl rel_ s (value icon)) = value icon ∧
    Forall (λ el, selects rel_ el = true → href el = (baseUrl ++ icon)%string) head' ∧
    existsb (selects rel_) head' = true ∧
    map rel head' = map rel head ++ (if existsb (selects rel_) head then [] else [rel_]) ∧
    map type (take (length head) head') = map type head ∧
    (∀ el, el ∈ head → selects rel_ el = false → el ∈ head').
Proof.
  intros Hd Hne. unfold set_favicon, on_change.
  rewrite bool_decide_eq_false_2, bool_decide_eq_true_2 by done. simpl.
  rewrite Hd. destruct (applyIcon_some icon head) as (head' & -> & H).
  by exists head'.
Qed.

Lemma existsb_by_rel a : ∀ b,
  map rel a = map rel b → existsb (selects rel_) a = existsb (selects rel_) b.
Proof.
  induction a as [|x a IH]; intros [|y b] Hm; simpl in *; try done.
  injection Hm as Hx Hm. by rewrite (selects_by_rel x y), (IH b).
Qed.

Lemma applyIcon_grown head icon h :
  grown_from selects rel_ head h →
  ∃ h', applyIcon selects baseUrl rel_ icon (Some h) = Some h' ∧ grown_from selects rel_ head h'.
Proof.
  intros Hg. destruct (applyIcon_some icon h) as (h' & Hh' & _ & _ & Hrel & _).
  exists h'. split; [done |]. unfold grown_from in *.
  destruct Hg as [Hsame | [Hone Hno]].
  - rewrite Hrel, Hsame, (existsb_by_rel h head Hsame).
    destruct (existsb (selects rel_) head) eqn:Hex.
    + left. by rewrite app_nil_r.
    + right. done.
  - right. split; [| done]. rewrite Hrel.
    assert (Hex : existsb (selects rel_) h = true).
    { rewrite (existsb_by_rel h (head ++ [{| rel := rel_; href := EmptyString;
                                             type := EmptyString |}])).
      - rewrite existsb_app. simpl. rewrite selects_own. by rewrite orb_true_r.
      - by rewrite map_app. }
    rewrite Hex. by rewrite app_nil_r.
Qed.

Lemma set_favicon_grown head s v h :
  document s = Some h → grown_from selects rel_ head h →
  ∃ h', document (set_favicon selects baseUrl rel_ s v) = Some h' ∧
        grown_from selects rel_ head h'.
Proof.
  intros Hd Hg. unfold set_favicon, on_change.
  case_bool_decide; [by eauto |].
  destruct v as [| |icon]; simpl; [by eauto | by eauto |].
  case_bool_decide; simpl; [| by eauto].
  rewrite Hd. by apply applyIcon_grown.
Qed.

(** X26.  Where the selector depends on [rel] only and selects a link
    carrying the configured [rel], updates never pile up link elements:
    after set-up and any sequence of values, the head holds the links it
    started with (same [rel]s, in order) and at most one more, and none
    more if the selector found a link to begin with. *)
Theorem icon_updates_add_at_most_one_link newIcon head vs :
  ∃ h,
    document (run selects baseUrl rel_ (useFavicon selects baseUrl rel_ newIcon (Some head)) vs)
      = Some h ∧
    (map rel h = map rel head ∨ map rel h = map rel head ++ [rel_]) ∧
    (existsb (selects rel_) head = true → map rel h = map rel head).
Proof.
  assert (H : ∀ s h0, document s = Some h0 → grown_from selects rel_ head h0 →
    ∃ h, document (run selects baseUrl rel_ s vs) = Some h ∧ grown_from selects rel_ head h).
  { induction vs as [|v vs IH]; intros s h0 Hd Hg; [by eauto |].
    destruct (set_favicon_grown head s v h0 Hd Hg) as (h' & Hd' & Hg').
    exact (IH _ h' Hd' Hg'). }
  assert (H0 : ∃ h0, document (useFavicon selects baseUrl rel_ newIcon (Some head))
                       = Some h0 ∧ grown_from selects rel_ head h0).
  { unfold useFavicon, on_change.
    destruct newIcon as [| |icon]; simpl; [by exists head; split; [| left]
                                         | by exists head; split; [| left] |].
    try rewrite bool_decide_eq_true_2 by done. simpl.
    apply applyIcon_grown. by left. }
  destruct H0 as (h0 & Hd0 & Hg0).
  destruct (H _ h0 Hd0 Hg0) as (h & Hd & Hg).
  exists h. split; [done |]. unfold grown_from in Hg.
  destruct Hg as [Hg | [Hg Hno]]; split; auto.
  intros Hex. congruence.
Qed.

(** X27.  Null and undefined are not a removal: whatever values were set
    before, writing null or undefined leaves every link as it is. *)
Theorem null_icon_leaves_links_alone s vs :
  Forall (λ v, nullish v = true) vs →
  document (run selects baseUrl rel_ s vs) = document s.
Proof.
  intros Hvs. revert s. induction Hvs as [|v vs Hv _ IH]; intros s; [done |].
  change (document (run selects baseUrl rel_ (set_favicon selects baseUrl rel_ s v) vs)
          = document s).
  rewrite IH. unfold set_favicon, on_change.
  case_bool_decide; [done |]. by destruct v.
Qed.

End FaviconFacts.

Lemma substring_selector_by_rel (r : string) (a b : Favicon.Link) :
  Favicon.rel a = Favicon.rel b →
  Favicon.substring_selector r a = Favicon.substring_selector r b.
Proof. intros H. unfold Favicon.substring_selector. by rewrite H. Qed.

Lemma new_icon_reaches_every_selected_link_witness :
  let s := {| Favicon.favicon := null; Favicon.document := Some Favicon.sample_head |} in
  ∃ head',
    Favicon.document
      (Favicon.set_favicon Favicon.substring_selector "/static" "icon" s
                           (value "/logo.svg"%string)) = Some head' ∧
    Favicon.favicon
      (Favicon.set_favicon Favicon.substring_selector "/static" "icon" s
                           (value "/logo.svg"%string)) = value "/logo.svg"%string ∧
    Forall (λ el, Favicon.substring_selector "icon" el = true →
                  Favicon.href el = ("/static" ++ "/logo.svg")%string) head' ∧
    existsb (Favicon.substring_selector "icon") head' = true ∧
    map Favicon.rel head' =
      map Favicon.rel Favicon.sample_head ++
      (if existsb (Favicon.substring_selector "icon") Favicon.sample_head
       then [] else ["icon"%string]) ∧
    map Favicon.type (take (length Favicon.sample_head) head')
      = map Favicon.type Favicon.sample_head ∧
    (∀ el, el ∈ Favicon.sample_head →
           Favicon.substring_selector "icon" el = false → el ∈ head').
Proof.
  apply (new_icon_reaches_every_selected_link Favicon.substring_selector
           "/static"%string "icon"%string
           (substring_selector_by_rel "icon") (λ h t, eq_refl)
           {| Favicon.favicon := null; Favicon.document := Some Favicon.sample_head |}
           "/logo.svg"%string Favicon.sample_head);
    [reflexivity | discriminate].
Defined.

Lemma icon_updates_add_at_most_one_link_witness :
  ∃ h,
    Favicon.document
      (Favicon.run Favicon.substring_selector EmptyString "apple-touch-icon"
         (Favicon.useFavicon Favicon.substring_selector EmptyString
            "apple-touch-icon" (value "/a.png"%string) (Some Favicon.sample_head))
         [value "/b.png"%string; null; value "/c.png"%string]) = Some h ∧
    (map Favicon.rel h = map Favicon.rel Favicon.sample_head ∨
     map Favicon.rel h =
       map Favicon.rel Favicon.sample_head ++ ["apple-touch-icon"%string]) ∧
    (existsb (Favicon.substring_selector "apple-touch-icon") Favicon.sample_head
       = true →
     map Favicon.rel h = map Favicon.rel Favicon.sample_head).
Proof.
  apply (icon_updates_add_at_most_one_link Favicon.substring_selector
           EmptyString "apple-touch-icon"%string
           (substring_selector_by_rel "apple-touch-icon") (λ h t, eq_refl)).
Defined.

Lemma null_icon_leaves_links_alone_witness :
  Favicon.document
    (Favicon.run Favicon.substring_selector EmptyString "icon"
       {| Favicon.favicon := value "/old.png"%string;
          Favicon.document := Some Favicon.sample_head |}
       [null; undefined])
  = Some Favicon.sample_head.
Proof.
  apply (null_icon_leaves_links_alone Favicon.substring_selector
           EmptyString "icon"%string
           {| Favicon.favicon := value "/old.png"%string;
              Favicon.document := Some Favicon.sample_head |} [null; undefined]).
  repeat constructor.
Defined.

(** The second premise is needed: with an empty [rel] the selector
    selects nothing, not even the links created before, and every new
    icon appends another link. *)
Example empty_rel_appends_every_time :
  map Favicon.href
    (Favicon.links
       (Favicon.run Favicon.substring_selector EmptyString EmptyString
          (Favicon.useFavicon Favicon.substring_selector EmptyString EmptyString
             (value "/a.png"%string) (Some []))
          [value "/b.png"%string; value "/c.png"%string]))
  = ["/a.png"; "/b.png"; "/c.png"]%string.
Proof. by vm_compute. Qed.

(** Evaluated on the sample head: both icon links are redirected, the
    stylesheet link is not, and nothing is appended. *)
Example favicon_trace :
  Favicon.links
    (Favicon.useFavicon Favicon.substring_selector "/static" "icon"
       (value "/logo.svg"%string) (Some Favicon.sample_head))
  = [{| Favicon.rel := "stylesheet"; Favicon.href := "/main.css";
        Favicon.type := "text/css" |};
     {| Favicon.rel := "shortcut icon"; Favicon.href := "/static/logo.svg";
        Favicon.type := "image/x-icon" |};
     {| Favicon.rel := "icon"; Favicon.href := "/static/logo.svg";
        Favicon.type := "image/png" |}]%string ∧
  Favicon.links
    (Favicon.useFavicon Favicon.substring_selector EmptyString "icon"
       (value "/logo.v2.svg"%string) (Some []))
  = [{| Favicon.rel := "icon"; Favicon.href := "/logo.v2.svg";
        Favicon.type := "image/svg" |}]%string.
Proof. by vm_compute. Qed.
